(** * file-counter: the scanner package (pkg/scanner/scanner.go)

    A shallow embedding of the scanner: the pure helpers [ShouldSkipPath]
    and [FormatBytes], the [Scanner] record with its methods, and a
    small-step model of one scan, in which the walker goroutine
    ([walkDirectory]), the worker goroutines ([worker], [ProcessPath]) and
    the caller of [Stop] take turns, one access to the shared state at a
    time.  [displayProgress] only reads the counters and prints; it is
    left out.  Integers are [Z] with the wrap-around of int64 written out,
    float64 is the primitive binary64 type. *)

From Stdlib Require Import ZArith List String Ascii Bool Lia.
From Stdlib Require Import DecimalString Floats Uint63.
Import ListNotations.
Open Scope string_scope.
Open Scope Z_scope.

(** ** int64 arithmetic *)

Module Int64.

Definition min_int : Z := - 2 ^ 63.
Definition max_int : Z := 2 ^ 63 - 1.
Definition modulus : Z := 2 ^ 64.

Definition in_range (z : Z) : Prop := min_int <= z <= max_int.

(** Two's-complement wrap-around of a mathematical integer. *)
Definition wrap (z : Z) : Z := (z + 2 ^ 63) mod modulus - 2 ^ 63.

Definition add (a b : Z) : Z := wrap (a + b).
Definition mul (a b : Z) : Z := wrap (a * b).

End Int64.

(** [atomic.AddInt64(&x, d)]: the new value of [x]. *)
Definition atomic_AddInt64 (x d : Z) : Z := Int64.add x d.

(** ** fmt verbs used by the package *)

(** [%d] on an int64. *)
Definition itoa (z : Z) : string := NilZero.string_of_int (Z.to_int z).

(** ** Path Classifier *)

(** [strings.HasPrefix(s, prefix)]; on Unix [filepath.HasPrefix] is this
    function. *)
Fixpoint HasPrefix (s prefix : string) {struct prefix} : bool :=
  match prefix with
  | EmptyString => true
  | String c prefix' =>
      match s with
      | EmptyString => false
      | String d s' => Ascii.eqb d c && HasPrefix s' prefix'
      end
  end.

Definition skipPaths : list string :=
  [ "/proc"; "/sys"; "/dev"; "/run"; "/tmp";
    "/var/run"; "/var/lock"; "/var/tmp" ].

(** The loop of [ShouldSkipPath] over a list of deny entries: the first
    entry that matches returns true. *)
Fixpoint skip_loop (path : string) (entries : list string) : bool :=
  match entries with
  | [] => false
  | skipPath :: rest =>
      if String.eqb path skipPath || HasPrefix path (skipPath ++ "/")
      then true
      else skip_loop path rest
  end.

Definition ShouldSkipPath (path : string) : bool := skip_loop path skipPaths.

(** ** Byte Formatter *)

(** [float64(z)] for an int64 [z]: the nearest binary64 value.  The
    primitive conversion takes an unsigned 63-bit integer, so the sign is
    put back afterwards; [2 ^ 63], the magnitude of the least int64, is a
    power of two and is reached by doubling. *)
Definition float64_of_nonneg (z : Z) : float :=
  if z <? 2 ^ 63 then PrimFloat.of_uint63 (Uint63.of_Z z)
  else PrimFloat.mul (PrimFloat.of_uint63 (Uint63.of_Z (z / 2))) 2%float.

Definition float64_of_int64 (z : Z) : float :=
  if z <? 0 then PrimFloat.opp (float64_of_nonneg (- z))
  else float64_of_nonneg z.

(** The number of tenths nearest to [num / den] (ties to even), for
    [0 <= num] and [0 < den]. *)
Definition tenths (num den : Z) : Z :=
  let q := (10 * num) / den in
  let r := (10 * num) mod den in
  if 2 * r <? den then q
  else if den <? 2 * r then q + 1
  else if Z.even q then q else q + 1.

(** The decimal with one fractional digit of a number of tenths. *)
Definition show_tenths (t : Z) : string :=
  itoa (t / 10) ++ "." ++ itoa (t mod 10).

(** [%.1f] on a float64: the decimal with one fractional digit nearest
    to the exact value of the float, ties to even. *)
Definition sprintf_f1 (f : float) : string :=
  match Prim2SF f with
  | S754_zero sign => (if sign then "-" else "") ++ "0.0"
  | S754_infinity sign => if sign then "-Inf" else "+Inf"
  | S754_nan => "NaN"
  | S754_finite sign m e =>
      let t := if 0 <=? e then 10 * Z.pos m * 2 ^ e
               else tenths (Z.pos m) (2 ^ (- e)) in
      (if sign then "-" else "") ++ show_tenths t
  end.

Definition unit_letters : string := "KMGTPE".

(** What a call can do: return, panic on a string index out of range, or
    fail to leave its loop within the fuel of the model. *)
Inductive outcome (A : Type) : Type :=
| Returned (a : A)
| Panicked
| Diverged.
Arguments Returned {A} a.
Arguments Panicked {A}.
Arguments Diverged {A}.

(** The [for n := bytes / unit; n >= unit; n /= unit] loop of
    [FormatBytes]; integer division truncates toward zero, [div] is an
    int64 and [exp] an int. *)
Fixpoint format_loop (fuel : nat) (n div exp : Z) : option (Z * Z) :=
  if n >=? 1024 then
    match fuel with
    | O => None
    | S fuel' => format_loop fuel' (Z.quot n 1024) (Int64.mul div 1024) (exp + 1)
    end
  else Some (div, exp).

Definition FormatBytes (bytes : Z) : outcome string :=
  if bytes <? 1024 then Returned (itoa bytes ++ " B")
  else
    match format_loop 64 (Z.quot bytes 1024) 1024 0 with
    | None => Diverged
    | Some (div, exp) =>
        match String.get (Z.to_nat exp) unit_letters with
        | None => Panicked
        | Some c =>
            Returned
              (sprintf_f1
                 (PrimFloat.div (float64_of_int64 bytes) (float64_of_int64 div))
               ++ " " ++ String c "B")
        end
    end.


(** ** The Scanner *)

(** What [os.Lstat] returns: the two [FileInfo] methods the scanner
    calls, or the error's text. *)
Record FileInfo : Type := mkFileInfo { IsDir : bool; Size : Z }.

Inductive stat_result : Type :=
| StatOk (info : FileInfo)
| StatErr (detail : string).

(** The [Scanner] struct.  [startTime] is a reading of the clock in
    nanoseconds; [ctx_done] says whether [ctx.Done()] is closed, which is
    all the package observes of [ctx] and [cancel].  [progressTicker] is
    read by [displayProgress] only and [mu] guards the two strings: each
    of [setLastError] and [setCurrentPath] is one atomic update. *)
Record Scanner : Type := mkScanner {
  fileCount : Z;
  dirCount : Z;
  errorCount : Z;
  skippedCount : Z;
  bytesScanned : Z;
  startTime : Z;
  ctx_done : bool;
  workerCount : Z;
  lastError : string;
  currentPath : string
}.

Definition NewScanner (now gomaxprocs : Z) : Scanner :=
  {| fileCount := 0; dirCount := 0; errorCount := 0; skippedCount := 0;
     bytesScanned := 0;
     startTime := now;
     ctx_done := false;
     workerCount := Int64.mul gomaxprocs 2;
     lastError := "";
     currentPath := "" |}.

Definition add_fileCount (s : Scanner) (d : Z) : Scanner :=
  mkScanner (atomic_AddInt64 (fileCount s) d) (dirCount s) (errorCount s)
    (skippedCount s) (bytesScanned s) (startTime s) (ctx_done s)
    (workerCount s) (lastError s) (currentPath s).

Definition add_dirCount (s : Scanner) (d : Z) : Scanner :=
  mkScanner (fileCount s) (atomic_AddInt64 (dirCount s) d) (errorCount s)
    (skippedCount s) (bytesScanned s) (startTime s) (ctx_done s)
    (workerCount s) (lastError s) (currentPath s).

Definition add_errorCount (s : Scanner) (d : Z) : Scanner :=
  mkScanner (fileCount s) (dirCount s) (atomic_AddInt64 (errorCount s) d)
    (skippedCount s) (bytesScanned s) (startTime s) (ctx_done s)
    (workerCount s) (lastError s) (currentPath s).

Definition add_skippedCount (s : Scanner) (d : Z) : Scanner :=
  mkScanner (fileCount s) (dirCount s) (errorCount s)
    (atomic_AddInt64 (skippedCount s) d) (bytesScanned s) (startTime s)
    (ctx_done s) (workerCount s) (lastError s) (currentPath s).

Definition add_bytesScanned (s : Scanner) (d : Z) : Scanner :=
  mkScanner (fileCount s) (dirCount s) (errorCount s) (skippedCount s)
    (atomic_AddInt64 (bytesScanned s) d) (startTime s) (ctx_done s)
    (workerCount s) (lastError s) (currentPath s).

Definition setLastError (s : Scanner) (err : string) : Scanner :=
  mkScanner (fileCount s) (dirCount s) (errorCount s) (skippedCount s)
    (bytesScanned s) (startTime s) (ctx_done s) (workerCount s)
    err (currentPath s).

Definition setCurrentPath (s : Scanner) (path : string) : Scanner :=
  mkScanner (fileCount s) (dirCount s) (errorCount s) (skippedCount s)
    (bytesScanned s) (startTime s) (ctx_done s) (workerCount s)
    (lastError s) path.

Definition getLastError (s : Scanner) : string := lastError s.
Definition getCurrentPath (s : Scanner) : string := currentPath s.

(** [s.cancel()]: closes [ctx.Done()]; a cancel function does nothing
    after its first call. *)
Definition Stop (s : Scanner) : Scanner :=
  if ctx_done s then s
  else
    mkScanner (fileCount s) (dirCount s) (errorCount s) (skippedCount s)
      (bytesScanned s) (startTime s) true (workerCount s)
      (lastError s) (currentPath s).

(** The two messages built with [fmt.Sprintf]. *)
Definition msg_getting_info (path detail : string) : string :=
  "Error getting info for " ++ path ++ ": " ++ detail.

Definition msg_accessing (path detail : string) : string :=
  "Error accessing " ++ path ++ ": " ++ detail.

Section PathProcessor.

Variable Lstat : string -> stat_result.

Definition ProcessPath (s : Scanner) (path : string) : Scanner :=
  match Lstat path with
  | StatErr err =>
      let s := add_errorCount s 1 in
      setLastError s (msg_getting_info path err)
  | StatOk info =>
      let s := if IsDir info then add_dirCount s 1
               else add_bytesScanned (add_fileCount s 1) (Size info) in
      if ShouldSkipPath path then add_skippedCount s 1 else s
  end.

End PathProcessor.

(** ** Time and the result snapshot *)

(** A [time.Duration] is an int64 count of nanoseconds; [t.Sub(u)]
    saturates at the ends of that range, and [time.Since(u)] is
    [time.Now().Sub(u)]. *)
Definition Second : Z := 1000000000.

Definition time_Sub (t u : Z) : Z :=
  Z.max Int64.min_int (Z.min Int64.max_int (t - u)).

Definition time_Since (now u : Z) : Z := time_Sub now u.

(** [d.Seconds()]: whole seconds plus the remaining nanoseconds over
    [1e9], in float64. *)
Definition Seconds (d : Z) : float :=
  let sec := Z.quot d Second in
  let nsec := Z.rem d Second in
  PrimFloat.add (float64_of_int64 sec)
    (PrimFloat.div (float64_of_int64 nsec) (float64_of_int64 Second)).

Record ScanResult : Type := mkScanResult {
  TotalFiles : Z;
  TotalDirs : Z;
  TotalErrors : Z;
  TotalSkipped : Z;
  TotalBytes : Z;
  Duration : Z;
  FilesPerSecond : float
}.

(** The end of [Start], from the return of [wg.Wait()] on; [now] is the
    clock when [time.Since] reads it. *)
Definition Start_return (s : Scanner) (now : Z) : ScanResult :=
  let duration := time_Since now (startTime s) in
  let filesPerSecond :=
    PrimFloat.div (float64_of_int64 (fileCount s)) (Seconds duration) in
  {| TotalFiles := fileCount s;
     TotalDirs := dirCount s;
     TotalErrors := errorCount s;
     TotalSkipped := skippedCount s;
     TotalBytes := bytesScanned s;
     Duration := duration;
     FilesPerSecond := filesPerSecond |}.

(** ** The tree under the root, as [filepath.Walk] meets it *)

(** An entry either fails [lstat], or is something other than a
    directory, or is a directory whose names [readDirNames] returns or
    fails to read (the entries are there all the same). *)
#[warnings="-register-all"]
Inductive tree : Type :=
| Gone (err : string)
| File
| Dir (readerr : option string) (kids : list (string * tree)).

(** [filepath.Join(dir, name)] for a clean [dir] and a plain [name]. *)
Definition Join (dir name : string) : string :=
  if String.eqb dir "/" then dir ++ name else dir ++ "/" ++ name.

Inductive kind : Type := KGone | KFile | KDir.

(** One invocation of the walk function: its [path] and [err] arguments,
    what [lstat] found there, and the children [filepath.Walk] goes on to
    when the function returns nil (none unless the entry is a directory
    whose names were read). *)
Record visit : Type := mkVisit {
  v_path : string;
  v_kind : kind;
  v_err : option string;
  v_kids : list (string * tree)
}.

Definition join_kids (dir : string) (kids : list (string * tree))
  : list (string * tree) :=
  map (fun nk => (Join dir (fst nk), snd nk)) kids.

Definition visit_of (path : string) (t : tree) : visit :=
  match t with
  | Gone e => mkVisit path KGone (Some e) []
  | File => mkVisit path KFile None []
  | Dir (Some e) _ => mkVisit path KDir (Some e) []
  | Dir None kids => mkVisit path KDir None (join_kids path kids)
  end.

(** The filesystem calls [filepath.Walk] makes for an entry before it
    invokes the walk function on it. *)
Inductive fsop : Type :=
| FsLstat (path : string)
| FsReadDir (path : string).

Definition fs_ops (path : string) (t : tree) : list fsop :=
  match t with
  | Dir _ _ => [FsLstat path; FsReadDir path]
  | _ => [FsLstat path]
  end.

(** The entries a walk that is never told to skip reaches, in the order
    of the walk: everything but what lies beneath a directory whose names
    cannot be read. *)
Fixpoint reach (path : string) (t : tree) : list string :=
  match t with
  | Dir None kids =>
      path ::
      (fix reach_kids (l : list (string * tree)) : list string :=
         match l with
         | [] => []
         | (name, k) :: l' => (reach (Join path name) k ++ reach_kids l')%list
         end) kids
  | _ => [path]
  end.

(** All the entries of a tree. *)
Fixpoint entries (t : tree) : nat :=
  match t with
  | Dir _ kids =>
      S ((fix entries_kids (l : list (string * tree)) : nat :=
            match l with
            | [] => O
            | (_, k) :: l' => (entries k + entries_kids l')%nat
            end) kids)
  | _ => 1%nat
  end.

(** ** One scan, step by step *)

(** [walkDirectory] hands its closure to [filepath.Walk] of the Go
    library, which calls [lstat] on an entry, reads the names of a
    directory, invokes the walk function on the entry with the error of
    either call, and then acts on what the function returns.  The model
    keeps the recursion of [filepath.Walk] as a stack of frames. *)

(** What the walk function returns to [filepath.Walk]. *)
Inductive walk_ret : Type := RetNil | RetSkipDir.

(** Where the walker goroutine is: inside [filepath.Walk] between two
    invocations of the walk function ([WalkNext]); in the walk function at
    its first [select] ([WalkSelect]), past it ([WalkBody]), between the
    error count and [setLastError] ([WalkSetErr]), at the [select] that
    sends the path ([WalkSend]); or back from [walkDirectory] with the
    channel closed ([WalkClosed]). *)
Inductive walker : Type :=
| WalkNext
| WalkSelect (v : visit)
| WalkBody (v : visit)
| WalkSetErr (v : visit) (detail : string)
| WalkSend (v : visit)
| WalkClosed.

(** Where a worker goroutine is: at its [select] ([WkSelect]); in
    [ProcessPath] before the first counter ([WkGot]), before the byte
    count ([WkBytes]), before the skip test ([WkSkip]), before
    [setLastError] ([WkSetErr]); or returned ([WkDone]). *)
Inductive worker : Type :=
| WkSelect
| WkGot (path : string)
| WkBytes (path : string) (size : Z)
| WkSkip (path : string)
| WkSetErr (msg : string)
| WkDone.

(** The state of a scan.  [frames] is the stack of [filepath.Walk]: one
    frame per directory being listed, holding its entries still to come,
    with the root as the only entry of the bottom frame.  [fslog],
    [visited] and [sent] record what the walker has done so far: its
    filesystem calls, the paths the walk function was invoked on, and the
    paths sent on the channel. *)
Record sys : Type := mkSys {
  sc : Scanner;
  chan : list string;
  wpc : walker;
  frames : list (list (string * tree));
  workers : list worker;
  fslog : list fsop;
  visited : list string;
  sent : list string
}.

Definition set_sc (s : Scanner) (st : sys) : sys :=
  mkSys s (chan st) (wpc st) (frames st) (workers st)
    (fslog st) (visited st) (sent st).

Definition set_chan (q : list string) (st : sys) : sys :=
  mkSys (sc st) q (wpc st) (frames st) (workers st)
    (fslog st) (visited st) (sent st).

Definition set_wpc (w : walker) (st : sys) : sys :=
  mkSys (sc st) (chan st) w (frames st) (workers st)
    (fslog st) (visited st) (sent st).

Definition set_frames (fr : list (list (string * tree))) (st : sys) : sys :=
  mkSys (sc st) (chan st) (wpc st) fr (workers st)
    (fslog st) (visited st) (sent st).

Definition set_workers (ws : list worker) (st : sys) : sys :=
  mkSys (sc st) (chan st) (wpc st) (frames st) ws
    (fslog st) (visited st) (sent st).

Definition log_fs (ops : list fsop) (st : sys) : sys :=
  mkSys (sc st) (chan st) (wpc st) (frames st) (workers st)
    (fslog st ++ ops)%list (visited st) (sent st).

Definition log_visit (path : string) (st : sys) : sys :=
  mkSys (sc st) (chan st) (wpc st) (frames st) (workers st)
    (fslog st) (visited st ++ [path])%list (sent st).

Definition log_sent (path : string) (st : sys) : sys :=
  mkSys (sc st) (chan st) (wpc st) (frames st) (workers st)
    (fslog st) (visited st) (sent st ++ [path])%list.

(** [make(chan string, 1000)]. *)
Definition chan_cap : nat := 1000.

Definition chan_closed (st : sys) : bool :=
  match wpc st with WalkClosed => true | _ => false end.

(** What [filepath.Walk] does with the value the walk function returns
    for visit [v].  On nil it goes into the directory's entries.  On
    [SkipDir] it drops them when [v] is a directory, drops the rest of the
    containing directory when [v] is another kind of file, and carries on
    with the next entry when [v] failed [lstat]. *)
Definition walk_return (r : walk_ret) (v : visit) (st : sys) : sys :=
  let fr :=
    match r with
    | RetNil =>
        match v_kind v, v_err v with
        | KDir, None => v_kids v :: frames st
        | _, _ => frames st
        end
    | RetSkipDir =>
        match v_kind v with
        | KFile => tl (frames st)
        | _ => frames st
        end
    end in
  set_wpc WalkNext (set_frames fr st).

(** A [select] with both cases ready picks one of them at random;
    [prefer_done] is that pick. *)
Definition select2 {A : Type} (ready_io ready_done prefer_done : bool)
    (io done : A) : option A :=
  match ready_io, ready_done with
  | false, false => None
  | true, false => Some io
  | false, true => Some done
  | true, true => Some (if prefer_done then done else io)
  end.

(** One move of the walker goroutine: [filepath.Walk] up to the next
    invocation of the walk function, or one access of the walk function
    of [walkDirectory] to the context, a counter, a string or the
    channel.  [None] when the walker is blocked on a full channel, or has
    returned. *)
Definition walker_step (prefer_done : bool) (st : sys) : option sys :=
  match wpc st with
  | WalkNext =>
      match frames st with
      | [] => Some (set_wpc WalkClosed st)
      | [] :: rest => Some (set_frames rest st)
      | ((p, t) :: more) :: rest =>
          Some (set_wpc (WalkSelect (visit_of p t))
                  (log_visit p (log_fs (fs_ops p t)
                     (set_frames (more :: rest) st))))
      end
  | WalkSelect v =>
      if ctx_done (sc st) then Some (walk_return RetSkipDir v st)
      else Some (set_wpc (WalkBody v) st)
  | WalkBody v =>
      match v_err v with
      | Some e =>
          Some (set_wpc (WalkSetErr v e)
                  (set_sc (add_errorCount (sc st) 1) st))
      | None =>
          Some (set_wpc (WalkSend v)
                  (set_sc (setCurrentPath (sc st) (v_path v)) st))
      end
  | WalkSetErr v e =>
      Some (walk_return RetNil v
              (set_sc (setLastError (sc st) (msg_accessing (v_path v) e)) st))
  | WalkSend v =>
      select2 (Nat.ltb (List.length (chan st)) chan_cap) (ctx_done (sc st))
        prefer_done
        (walk_return RetNil v
           (log_sent (v_path v) (set_chan (chan st ++ [v_path v])%list st)))
        (walk_return RetSkipDir v st)
  | WalkClosed => None
  end.

Fixpoint set_nth {A : Type} (i : nat) (a : A) (l : list A) : list A :=
  match l, i with
  | [], _ => []
  | _ :: l', O => a :: l'
  | b :: l', S i' => b :: set_nth i' a l'
  end.

Definition set_worker (i : nat) (w : worker) (st : sys) : sys :=
  set_workers (set_nth i w (workers st)) st.

Section Scan.

(** What [os.Lstat] answers to the workers.  It need not agree with what
    the walker found: an entry can vanish between the two. *)
Variable Lstat : string -> stat_result.

(** One move of worker [i]: the [select] of [worker], or one access of
    [ProcessPath] to a counter or to [lastError] ([os.Lstat] goes with
    the counter that follows it).  [None] when the worker is blocked on
    an empty channel, or has returned. *)
Definition worker_step (i : nat) (prefer_done : bool) (st : sys)
  : option sys :=
  match nth_error (workers st) i with
  | None => None
  | Some WkSelect =>
      select2
        (match chan st with [] => chan_closed st | _ :: _ => true end)
        (ctx_done (sc st))
        prefer_done
        (match chan st with
         | path :: q => set_worker i (WkGot path) (set_chan q st)
         | [] => set_worker i WkDone st
         end)
        (set_worker i WkDone st)
  | Some (WkGot path) =>
      match Lstat path with
      | StatErr err =>
          Some (set_worker i (WkSetErr (msg_getting_info path err))
                  (set_sc (add_errorCount (sc st) 1) st))
      | StatOk info =>
          if IsDir info
          then Some (set_worker i (WkSkip path)
                       (set_sc (add_dirCount (sc st) 1) st))
          else Some (set_worker i (WkBytes path (Size info))
                       (set_sc (add_fileCount (sc st) 1) st))
      end
  | Some (WkBytes path size) =>
      Some (set_worker i (WkSkip path)
              (set_sc (add_bytesScanned (sc st) size) st))
  | Some (WkSkip path) =>
      Some (set_worker i WkSelect
              (if ShouldSkipPath path
               then set_sc (add_skippedCount (sc st) 1) st
               else st))
  | Some (WkSetErr msg) =>
      Some (set_worker i WkSelect (set_sc (setLastError (sc st) msg) st))
  | Some WkDone => None
  end.

(** Who moves next: the caller of [Stop], the walker, or worker [i]. *)
Inductive actor : Type :=
| CallStop
| Walker
| Worker (i : nat).

Definition step (a : actor) (prefer_done : bool) (st : sys) : option sys :=
  match a with
  | CallStop => Some (set_sc (Stop (sc st)) st)
  | Walker => walker_step prefer_done st
  | Worker i => worker_step i prefer_done st
  end.

Fixpoint run (sched : list (actor * bool)) (st : sys) : option sys :=
  match sched with
  | [] => Some st
  | (a, d) :: sched' =>
      match step a d st with
      | None => None
      | Some st' => run sched' st'
      end
  end.

(** [Start(rootPath)] up to [wg.Wait()]: an empty channel, [workerCount]
    workers at their [select], the walker about to call
    [filepath.Walk]. *)
Definition Start_state (s : Scanner) (rootPath : string) (t : tree) : sys :=
  {| sc := s;
     chan := [];
     wpc := WalkNext;
     frames := [[(rootPath, t)]];
     workers := repeat WkSelect (Z.to_nat (workerCount s));
     fslog := [];
     visited := [];
     sent := [] |}.

Definition is_done (w : worker) : bool :=
  match w with WkDone => true | _ => false end.

(** [wg.Wait()] returns when every worker has. *)
Definition waited (st : sys) : bool := forallb is_done (workers st).

(** The [ScanResult] of a scan that has reached state [st], when
    [Start] reads the clock at [now]. *)
Definition Start_result (st : sys) (now : Z) : option ScanResult :=
  if waited st then Some (Start_return (sc st) now) else None.

End Scan.

(** ** Small filesystems to run scans on *)

(** A file of 13 bytes under /tmp, and nothing else. *)
Definition Lstat_hello (path : string) : stat_result :=
  if String.eqb path "/tmp/test-file" then StatOk (mkFileInfo false 13)
  else StatErr "no such file or directory".

(** A root with two directories of one file each. *)
Definition two_dirs : tree :=
  Dir None [("d1", Dir None [("a", File)]); ("d2", Dir None [("b", File)])].

Definition Lstat_two_dirs (path : string) : stat_result :=
  if String.eqb path "/r/d1/a" then StatOk (mkFileInfo false 13)
  else if String.eqb path "/r/d2/b" then StatOk (mkFileInfo false 7)
  else if HasPrefix path "/r" then StatOk (mkFileInfo true 4096)
  else StatErr "no such file or directory".

(** [n] consecutive moves of one actor. *)
Definition turns (a : actor) (n : nat) : list (actor * bool) :=
  repeat (a, false) n.

(** The walker walks the whole tree, then the first worker drains the
    channel, then the second finds it closed. *)
Definition walk_then_work : list (actor * bool) :=
  (turns Walker 25 ++ turns (Worker 0) 18 ++ turns (Worker 1) 1)%list.

Definition two_dirs_scanned : sys :=
  {| sc := {| fileCount := 2; dirCount := 3; errorCount := 0;
              skippedCount := 0; bytesScanned := 20; startTime := 0;
              ctx_done := false; workerCount := 2; lastError := "";
              currentPath := "/r/d2/b" |};
     chan := [];
     wpc := WalkClosed;
     frames := [];
     workers := [WkDone; WkDone];
     fslog := [FsLstat "/r"; FsReadDir "/r"; FsLstat "/r/d1";
               FsReadDir "/r/d1"; FsLstat "/r/d1/a"; FsLstat "/r/d2";
               FsReadDir "/r/d2"; FsLstat "/r/d2/b"];
     visited := ["/r"; "/r/d1"; "/r/d1/a"; "/r/d2"; "/r/d2/b"];
     sent := ["/r"; "/r/d1"; "/r/d1/a"; "/r/d2"; "/r/d2/b"] |}.


(** A root that holds one directory whose names cannot be read, with a
    file inside. *)
Definition locked_dir : tree :=
  Dir None [("locked", Dir (Some "permission denied") [("f", File)])].

Definition Lstat_locked (path : string) : stat_result :=
  if String.eqb path "/r/locked/f" then StatOk (mkFileInfo false 5)
  else if HasPrefix path "/r" then StatOk (mkFileInfo true 4096)
  else StatErr "no such file or directory".

(** The walker walks what it can reach, the first worker drains the
    channel, the second finds it closed. *)
Definition walk_locked : list (actor * bool) :=
  (turns Walker 11 ++ turns (Worker 0) 4 ++ turns (Worker 1) 1)%list.

Definition locked_scanned : sys :=
  {| sc := {| fileCount := 0; dirCount := 1; errorCount := 1;
              skippedCount := 0; bytesScanned := 0; startTime := 0;
              ctx_done := false; workerCount := 2;
              lastError := "Error accessing /r/locked: permission denied";
              currentPath := "/r" |};
     chan := [];
     wpc := WalkClosed;
     frames := [];
     workers := [WkDone; WkDone];
     fslog := [FsLstat "/r"; FsReadDir "/r"; FsLstat "/r/locked";
               FsReadDir "/r/locked"];
     visited := ["/r"; "/r/locked"];
     sent := ["/r"] |}.

(** The walker gets as far as invoking the walk function on /r/d1/a, and
    [Stop] is called before the first [select] there. *)
Definition stop_at_first_file : list (actor * bool) :=
  (turns Walker 9 ++ [(CallStop, false)])%list.

Definition two_dirs_stopped : sys :=
  {| sc := {| fileCount := 0; dirCount := 0; errorCount := 0;
              skippedCount := 0; bytesScanned := 0; startTime := 0;
              ctx_done := true; workerCount := 2; lastError := "";
              currentPath := "/r/d1" |};
     chan := ["/r"; "/r/d1"];
     wpc := WalkSelect (mkVisit "/r/d1/a" KFile None []);
     frames := [[]; [("/r/d2", Dir None [("b", File)])]; []];
     workers := [WkSelect; WkSelect];
     fslog := [FsLstat "/r"; FsReadDir "/r"; FsLstat "/r/d1";
               FsReadDir "/r/d1"; FsLstat "/r/d1/a"];
     visited := ["/r"; "/r/d1"; "/r/d1/a"];
     sent := ["/r"; "/r/d1"] |}.

(** ** What is left of a walk *)

(** The paths a walk still has to reach from the entries of one frame, of
    a stack of frames, and from the children of the entry being
    visited. *)
Definition pend_frame (f : list (string * tree)) : list string :=
  flat_map (fun pt => reach (fst pt) (snd pt)) f.

Definition pend_frames (frs : list (list (string * tree))) : list string :=
  flat_map pend_frame frs.

Definition kids_pend (v : visit) : list string :=
  match v_kind v, v_err v with
  | KDir, None => pend_frame (v_kids v)
  | _, _ => []
  end.

Definition walker_kids (w : walker) : list string :=
  match w with
  | WalkSelect v | WalkBody v | WalkSend v | WalkSetErr v _ => kids_pend v
  | _ => []
  end.

(** Paths in flight: the one the walk function has been invoked on and
    has neither counted as an error nor sent, and the one a worker has
    received and not yet counted. *)
Definition walker_holds (w : walker) : Z :=
  match w with
  | WalkSelect _ | WalkBody _ | WalkSend _ => 1
  | _ => 0
  end.

Definition worker_holds (w : worker) : Z :=
  match w with WkGot _ => 1 | _ => 0 end.

Definition workers_hold (ws : list worker) : Z :=
  fold_right (fun w acc => worker_holds w + acc) 0 ws.

(** What holds of a scan as long as nobody has called [Stop]: the paths
    visited and those still to come make up the walk of the tree; the
    walker closes the channel only when nothing is left; a worker returns
    only when the channel is closed and empty; the pool keeps its
    size. *)
Record walk_inv (rootPath : string) (t : tree) (st : sys) : Prop := {
  inv_walk :
    (visited st ++ walker_kids (wpc st) ++ pend_frames (frames st))%list
    = reach rootPath t;
  inv_closed : wpc st = WalkClosed -> frames st = [];
  inv_done :
    existsb is_done (workers st) = true -> wpc st = WalkClosed /\ chan st = [];
  inv_pool : List.length (workers st) = Z.to_nat (workerCount (sc st))
}.

(** Every visited path is in exactly one place: counted as a file, as a
    directory or as an error, queued on the channel, or in flight. *)
Record count_inv (st : sys) : Prop := {
  inv_count :
    fileCount (sc st) + dirCount (sc st) + errorCount (sc st)
    + Z.of_nat (List.length (chan st)) + workers_hold (workers st)
    + walker_holds (wpc st)
    = Z.of_nat (List.length (visited st));
  inv_nonneg :
    0 <= fileCount (sc st) /\ 0 <= dirCount (sc st) /\ 0 <= errorCount (sc st)
}.

(** The moves an entry still costs the scan: at most four of the walker
    to visit it and four of a worker to process it, and for a directory
    that is listed one more to leave it, and its entries. *)
Fixpoint cost (t : tree) : nat :=
  match t with
  | Dir None kids =>
      (9 + (fix cost_kids (l : list (string * tree)) : nat :=
              match l with
              | [] => O
              | (_, k) :: l' => cost k + cost_kids l'
              end) kids)%nat
  | _ => 8%nat
  end.

Definition frame_cost (f : list (string * tree)) : nat :=
  fold_right (fun pt acc => (cost (snd pt) + acc)%nat) O f.

Definition frames_cost (frs : list (list (string * tree))) : nat :=
  fold_right (fun f acc => (1 + frame_cost f + acc)%nat) O frs.

Definition kids_cost (v : visit) : nat :=
  match v_kind v, v_err v with
  | KDir, None => (1 + frame_cost (v_kids v))%nat
  | _, _ => O
  end.

Definition walker_cost (w : walker) : nat :=
  match w with
  | WalkNext => 1%nat
  | WalkSelect v => (8 + kids_cost v)%nat
  | WalkBody v => (7 + kids_cost v)%nat
  | WalkSetErr v _ => (6 + kids_cost v)%nat
  | WalkSend v => (6 + kids_cost v)%nat
  | WalkClosed => O
  end.

Definition worker_cost (w : worker) : nat :=
  match w with
  | WkSelect => 1%nat
  | WkGot _ => 4%nat
  | WkBytes _ _ => 3%nat
  | WkSkip _ => 2%nat
  | WkSetErr _ => 2%nat
  | WkDone => O
  end.

Definition workers_cost (ws : list worker) : nat :=
  fold_right (fun w acc => (worker_cost w + acc)%nat) O ws.

Definition moves_left (st : sys) : nat :=
  (walker_cost (wpc st) + frames_cost (frames st)
   + 4 * List.length (chan st) + workers_cost (workers st))%nat.

(** The walker is not inside the body of the walk function: its next
    move in the walk function, if any, is the first [select]. *)
Definition walker_idle (w : walker) : bool :=
  match w with
  | WalkNext | WalkSelect _ | WalkClosed => true
  | _ => false
  end.

(** What a scan in state [st'] has kept of an earlier state [st] in
    which the signal was raised and the walker idle: nothing more was
    sent or recorded as the current path, no directory was entered (the
    stack of [filepath.Walk] did not grow, and no entries were added to
    it), and the channel only lost paths from its front. *)
Definition quiet_since (st st' : sys) : Prop :=
  ctx_done (sc st') = true /\
  walker_idle (wpc st') = true /\
  sent st' = sent st /\
  currentPath (sc st') = currentPath (sc st) /\
  (List.length (frames st') <= List.length (frames st))%nat /\
  (List.length (List.concat (frames st')) <= List.length (List.concat (frames st)))%nat /\
  exists k : nat, chan st' = skipn k (chan st).

(** Every directory of the tree can be listed. *)
Fixpoint listable (t : tree) : bool :=
  match t with
  | Dir (Some _) _ => false
  | Dir None kids =>
      (fix listable_kids (l : list (string * tree)) : bool :=
         match l with
         | [] => true
         | (_, k) :: l' => listable k && listable_kids l'
         end) kids
  | _ => true
  end.

(** Case analysis on one step: every branch of [step] that yields a
    state, with that state computed. *)
Ltac step_cases H :=
  unfold step, walker_step, worker_step, select2 in H;
  repeat match type of H with
         | context [match ?x with _ => _ end] => destruct x eqn:?
         end;
  try discriminate H;
  injection H as <-;
  unfold walk_return, set_worker, set_workers, set_wpc, set_frames,
    set_sc, set_chan, log_fs, log_visit, log_sent;
  cbn [sc chan wpc frames workers fslog visited sent].

(** Unfolds a state after [step_cases], with the equations on the state
    before the step put to use. *)
Ltac use_state_equations :=
  repeat match goal with
         | E : frames _ = _ |- _ => rewrite E in *; clear E
         | E : chan _ = _ |- _ => rewrite E in *; clear E
         | E : wpc _ = _ |- _ => progress (rewrite E in * )
         end.

Ltac unfold_state :=
  cbn [sc chan wpc frames workers visited sent fslog
       fileCount dirCount errorCount skippedCount bytesScanned workerCount
       ctx_done currentPath lastError startTime
       add_fileCount add_dirCount add_errorCount add_skippedCount
       add_bytesScanned setLastError setCurrentPath
       walker_kids walker_holds walker_idle] in *.


(** * The scan as a whole, the progress reporter and the demo listing *)

(** ** What a scan adds up to *)

(** The invocations of the walk function in a walk that is never told to
    skip: the path and the error it is handed, in order. *)
Fixpoint calls (path : string) (t : tree) : list (string * option string) :=
  match t with
  | Gone e => [(path, Some e)]
  | File => [(path, None)]
  | Dir (Some e) _ => [(path, Some e)]
  | Dir None kids =>
      (path, None) ::
      (fix calls_kids (l : list (string * tree))
         : list (string * option string) :=
         match l with
         | [] => []
         | (name, k) :: l' => (calls (Join path name) k ++ calls_kids l')%list
         end) kids
  end.

(** The paths among some invocations that came without an error, and
    the number of those that came with one. *)
Fixpoint oks (l : list (string * option string)) : list string :=
  match l with
  | [] => []
  | (p, None) :: l' => p :: oks l'
  | (_, Some _) :: l' => oks l'
  end.

Fixpoint errs (l : list (string * option string)) : Z :=
  match l with
  | [] => 0
  | (_, None) :: l' => errs l'
  | (_, Some _) :: l' => 1 + errs l'
  end.

Definition call_of (v : visit) : string * option string :=
  (v_path v, v_err v).

Definition frame_calls (f : list (string * tree))
  : list (string * option string) :=
  flat_map (fun pt => calls (fst pt) (snd pt)) f.

Definition frames_calls (frs : list (list (string * tree)))
  : list (string * option string) :=
  flat_map frame_calls frs.

Definition kids_calls (v : visit) : list (string * option string) :=
  match v_kind v, v_err v with
  | KDir, None => frame_calls (v_kids v)
  | _, _ => []
  end.

(** The invocations the walker still has to make, the one it is about to
    check the signal for included. *)
Definition walker_todo (w : walker) : list (string * option string) :=
  match w with
  | WalkSelect v => call_of v :: kids_calls v
  | WalkBody v | WalkSend v | WalkSetErr v _ => kids_calls v
  | _ => []
  end.

(** The path the walker is about to send, and the error it is about to
    count. *)
Definition maysend (w : walker) : list string :=
  match w with
  | WalkBody v => match v_err v with None => [v_path v] | Some _ => [] end
  | WalkSend v => [v_path v]
  | _ => []
  end.

Definition maycount (w : walker) : Z :=
  match w with
  | WalkBody v => match v_err v with None => 0 | Some _ => 1 end
  | _ => 0
  end.

Definition is_prefix {A : Type} (l1 l2 : list A) : Prop :=
  exists rest, l2 = (l1 ++ rest)%list.

Definition sum_w (f : string -> Z) (l : list string) : Z :=
  fold_right (fun p acc => f p + acc) 0 l.

Definition workers_sum (g : worker -> Z) (ws : list worker) : Z :=
  fold_right (fun w acc => g w + acc) 0 ws.

Section Weights.

Variable Lstat : string -> stat_result.

(** What [ProcessPath] adds to each counter for a path. *)
Definition file_w (p : string) : Z :=
  match Lstat p with
  | StatOk info => if IsDir info then 0 else 1
  | StatErr _ => 0
  end.

Definition dir_w (p : string) : Z :=
  match Lstat p with
  | StatOk info => if IsDir info then 1 else 0
  | StatErr _ => 0
  end.

Definition err_w (p : string) : Z :=
  match Lstat p with
  | StatOk _ => 0
  | StatErr _ => 1
  end.

Definition bytes_w (p : string) : Z :=
  match Lstat p with
  | StatOk info => if IsDir info then 0 else Size info
  | StatErr _ => 0
  end.

Definition skip_w (p : string) : Z :=
  match Lstat p with
  | StatOk _ => if ShouldSkipPath p then 1 else 0
  | StatErr _ => 0
  end.

(** What a worker has still to add to a counter for the path it holds. *)
Definition owes (f : string -> Z) (w : worker) : Z :=
  match w with
  | WkGot p => f p
  | _ => 0
  end.

Definition owes_bytes (w : worker) : Z :=
  match w with
  | WkGot p => bytes_w p
  | WkBytes _ size => size
  | _ => 0
  end.

Definition owes_skip (w : worker) : Z :=
  match w with
  | WkGot p => skip_w p
  | WkBytes p _ | WkSkip p => if ShouldSkipPath p then 1 else 0
  | _ => 0
  end.

(** The amount the workers have added to a counter so far: what the
    paths sent come to, less what is still queued and what is owed. *)
Definition tally (f : string -> Z) (g : worker -> Z) (st : sys) : Z :=
  sum_w f (sent st) - sum_w f (chan st) - workers_sum g (workers st).

Record tally_inv (st : sys) : Prop := {
  tally_files : fileCount (sc st) = Int64.wrap (tally file_w (owes file_w) st);
  tally_dirs : dirCount (sc st) = Int64.wrap (tally dir_w (owes dir_w) st);
  tally_bytes : bytesScanned (sc st) = Int64.wrap (tally bytes_w owes_bytes st);
  tally_skipped :
    skippedCount (sc st) = Int64.wrap (tally skip_w owes_skip st);
  tally_files_nonneg : 0 <= tally file_w (owes file_w) st;
  tally_dirs_nonneg : 0 <= tally dir_w (owes dir_w) st;
  tally_errs_nonneg : 0 <= tally err_w (owes err_w) st;
  tally_skipped_nonneg : 0 <= tally skip_w owes_skip st
}.

(** The walker's side: the invocations made so far form a beginning [pre]
    of those of the whole walk; the paths sent, with the one about to be
    sent, begin the error-free ones among them; [errorCount] is the errors
    among them, less the one about to be counted, plus the workers'; and
    as long as nobody has called [Stop], the invocations to come are all
    the rest and nothing was left unsent. *)
Definition walk_tally_inv (rootPath : string) (t : tree) (st : sys) : Prop :=
  exists pre post,
    calls rootPath t = (pre ++ post)%list /\
    is_prefix (sent st ++ maysend (wpc st))%list (oks pre) /\
    errorCount (sc st)
    = Int64.wrap (errs pre - maycount (wpc st)
                  + tally err_w (owes err_w) st) /\
    0 <= errs pre - maycount (wpc st) /\
    (ctx_done (sc st) = false ->
     post = (walker_todo (wpc st) ++ frames_calls (frames st))%list /\
     oks pre = (sent st ++ maysend (wpc st))%list).

End Weights.

(** The tree of the package's own scan test: five files of twelve bytes
    in a root and two nested directories, under /tmp. *)
Definition temp_tree : tree :=
  Dir None
    [("file1.txt", File); ("file2.txt", File);
     ("subdir",
      Dir None
        [("file3.txt", File); ("file4.txt", File);
         ("nested", Dir None [("file5.txt", File)])])].

Definition temp_root : string := "/tmp/file-counter-test".

Definition Lstat_temp (path : string) : stat_result :=
  if existsb (String.eqb path)
       [temp_root; temp_root ++ "/subdir"; temp_root ++ "/subdir/nested"]
  then StatOk (mkFileInfo true 4096)
  else if HasPrefix path (temp_root ++ "/")
  then StatOk (mkFileInfo false 12)
  else StatErr "no such file or directory".

Definition walk_temp : list (actor * bool) :=
  (turns Walker 37 ++ turns (Worker 0) 30 ++ turns (Worker 1) 1)%list.

Definition temp_scanned : sys :=
  Eval vm_compute in
    match run Lstat_temp walk_temp
            (Start_state (NewScanner 0 1) temp_root temp_tree) with
    | Some st => st
    | None => Start_state (NewScanner 0 1) temp_root temp_tree
    end.

(** ** What holds all along a scan *)

(** The channel holds at most its capacity, and what it holds is the end
    of what was sent: paths leave it in the order they were sent. *)
Definition chan_inv (st : sys) : Prop :=
  (List.length (chan st) <= chan_cap)%nat /\
  (exists got, sent st = (got ++ chan st)%list) /\
  List.length (workers st) = Z.to_nat (workerCount (sc st)).

(** A worker that holds no path. *)
Definition worker_free (w : worker) : bool :=
  match w with
  | WkSelect | WkDone => true
  | _ => false
  end.

(** A scan whose scanner was stopped before [Start]: nothing sent,
    nothing queued or held, nothing counted. *)
Definition untouched (st : sys) : Prop :=
  ctx_done (sc st) = true /\
  walker_idle (wpc st) = true /\
  sent st = [] /\ chan st = [] /\
  forallb worker_free (workers st) = true /\
  fileCount (sc st) = 0 /\ dirCount (sc st) = 0 /\
  errorCount (sc st) = 0 /\ skippedCount (sc st) = 0 /\
  bytesScanned (sc st) = 0 /\
  lastError (sc st) = "" /\ currentPath (sc st) = "".

(** ** Progress Reporter *)

(** The control bytes [displayProgress] prints: carriage return, escape
    and line feed. *)
Definition CR : string := String (ascii_of_nat 13) "".
Definition ESC : string := String (ascii_of_nat 27) "".
Definition LF : string := String (ascii_of_nat 10) "".

(** [d.Truncate(m)]. *)
Definition Duration_Truncate (d m : Z) : Z :=
  if m <=? 0 then d else d - Z.rem d m.

(** [fmtFrac] of package time: the last [prec] decimal digits of [v] as a
    fraction, trailing zeros and an all-zero fraction left out, and [v]
    without those digits. *)
Fixpoint fmtFrac (prec : nat) (v : Z) (print : bool) (acc : string)
  : string * Z :=
  match prec with
  | O => (if print then "." ++ acc else acc, v)
  | S prec' =>
      let digit := v mod 10 in
      let print := print || negb (digit =? 0) in
      fmtFrac prec' (v / 10) print (if print then itoa digit ++ acc else acc)
  end.

(** [d.String()], which [%v] prints for a [time.Duration]. *)
Definition Duration_String (d : Z) : string :=
  let u := Z.abs d in
  let sign := if d <? 0 then "-" else "" in
  if u <? Second then
    if u =? 0 then "0s"
    else
      let '(prec, unit) :=
        if u <? 1000 then (0%nat, "ns")
        else if u <? 1000000
             then (3%nat,
                   String (ascii_of_nat 194) (String (ascii_of_nat 181) "s"))
             else (6%nat, "ms") in
      let '(frac, whole) := fmtFrac prec u false "" in
      sign ++ itoa whole ++ frac ++ unit
  else
    let '(frac, secs) := fmtFrac 9 u false "" in
    let s := itoa (secs mod 60) ++ frac ++ "s" in
    let mins := secs / 60 in
    if 0 <? mins then
      let m := itoa (mins mod 60) ++ "m" in
      let hours := mins / 60 in
      if 0 <? hours then sign ++ itoa hours ++ "h" ++ m ++ s
      else sign ++ m ++ s
    else sign ++ s.

(** The two cuts of [displayProgress]: a path longer than 80 bytes keeps
    its last 77 after three dots, an error message longer than 80 bytes
    its first 77 before three dots. *)
Definition truncate_path (currentPath : string) : string :=
  if Nat.ltb 80 (String.length currentPath)
  then "..." ++ substring (String.length currentPath - 77) 77 currentPath
  else currentPath.

Definition truncate_error (lastError : string) : string :=
  if Nat.ltb 80 (String.length lastError)
  then substring 0 77 lastError ++ "..."
  else lastError.

Definition status_line (files dirs errors skipped : Z) (size : string)
    (elapsed : Z) : string :=
  "Scanned Files: " ++ itoa files ++ " | Dirs: " ++ itoa dirs
  ++ " | Errors: " ++ itoa errors ++ " | Skipped: " ++ itoa skipped
  ++ " | Size: " ++ size
  ++ " | Time: " ++ Duration_String (Duration_Truncate elapsed Second).

(** [fmt.Printf("\r\033[K")]: back to the first column, and the line
    erased from there. *)
Definition clear_line : string := CR ++ ESC ++ "[K".

(** [fmt.Printf("\033[%dA", k)]: the cursor goes up [k] lines. *)
Definition cursor_up (k : Z) : string := ESC ++ "[" ++ itoa k ++ "A".

(** One tick of [displayProgress], from the values it has loaded: the
    output of each [fmt.Printf] in turn. *)
Definition progress_prints (files dirs errors skipped bytes elapsed : Z)
    (currentPath lastError : string) : outcome (list string) :=
  match FormatBytes bytes with
  | Panicked => Panicked
  | Diverged => Diverged
  | Returned size =>
      let clear := clear_line in
      let status := status_line files dirs errors skipped size elapsed in
      let '(currentPath, current) :=
        if Nat.ltb 0 (String.length currentPath) then
          let currentPath :=
            if Nat.ltb 80 (String.length currentPath)
            then truncate_path currentPath else currentPath in
          (currentPath, [LF ++ "Current: " ++ currentPath])
        else (currentPath, []) in
      let '(lastError, last) :=
        if Nat.ltb 0 (String.length lastError) && (0 <? errors) then
          let lastError :=
            if Nat.ltb 80 (String.length lastError)
            then truncate_error lastError else lastError in
          (lastError, [LF ++ "Last Error: " ++ lastError])
        else (lastError, []) in
      let up :=
        if Nat.ltb 0 (String.length currentPath)
           || Nat.ltb 0 (String.length lastError) then
          let lines := 1 in
          let lines :=
            if Nat.ltb 0 (String.length currentPath) then lines + 1
            else lines in
          let lines :=
            if Nat.ltb 0 (String.length lastError) then lines + 1
            else lines in
          [cursor_up (lines - 1)]
        else [] in
      Returned ([clear; status] ++ current ++ last ++ up)%list
  end.

(** The tick on a scanner all of whose fields are read at one instant. *)
Definition displayProgress_tick (s : Scanner) (now : Z)
  : outcome (list string) :=
  progress_prints (fileCount s) (dirCount s) (errorCount s) (skippedCount s)
    (bytesScanned s) (time_Since now (startTime s))
    (getCurrentPath s) (getLastError s).

(** A whole number of seconds the way [time.Duration] prints it. *)
Definition whole_seconds (n : Z) : string :=
  if n <? 60 then itoa n ++ "s"
  else if n <? 3600 then itoa (n / 60) ++ "m" ++ itoa (n mod 60) ++ "s"
  else itoa (n / 3600) ++ "h" ++ itoa (n / 60 mod 60) ++ "m"
       ++ itoa (n mod 60) ++ "s".

(** The lines [displayProgress] prints below the status line. *)
Definition lines_below (errors : Z) (currentPath lastError : string)
  : list string :=
  let current :=
    if Nat.ltb 0 (String.length currentPath)
    then [LF ++ "Current: " ++ truncate_path currentPath] else [] in
  let last :=
    if Nat.ltb 0 (String.length lastError) && (0 <? errors)
    then [LF ++ "Last Error: " ++ truncate_error lastError] else [] in
  (current ++ last)%list.

(** An error message is stored, or about to be, only after its error has
    been counted. *)
Definition err_counted (st : sys) : Prop :=
  (lastError (sc st) <> "" -> 1 <= errorCount (sc st)) /\
  (forall v e, wpc st = WalkSetErr v e -> 1 <= errorCount (sc st)) /\
  (forall i msg, nth_error (workers st) i = Some (WkSetErr msg) ->
                 1 <= errorCount (sc st)).

(** ** The demo's directory listing *)

(** [strings.Split(s, sep)] for a separator of one byte. *)
Fixpoint strings_Split (sep : ascii) (s : string) : list string :=
  match s with
  | "" => [""]
  | String c s' =>
      if Ascii.eqb c sep then "" :: strings_Split sep s'
      else
        match strings_Split sep s' with
        | h :: rest => String c h :: rest
        | [] => [String c ""]
        end
  end.

(** [filepath.SplitList] on Unix, where the list separator is a colon. *)
Definition SplitList (path : string) : list string :=
  if String.eqb path "" then [] else strings_Split ":"%char path.

(** The number of bytes of [s] equal to [c]. *)
Fixpoint count_byte (c : ascii) (s : string) : Z :=
  match s with
  | "" => 0
  | String x s' => (if Ascii.eqb x c then 1 else 0) + count_byte c s'
  end.

(** [path] without its trailing slashes. *)
Fixpoint strip_trailing_slashes (path : string) : string :=
  match path with
  | "" => ""
  | String c s =>
      match strip_trailing_slashes s with
      | "" => if Ascii.eqb c "/"%char then "" else String c ""
      | r => String c r
      end
  end.

(** What follows the last slash of [path], all of it when it has none. *)
Fixpoint last_element (path : string) : string :=
  match path with
  | "" => ""
  | String c s =>
      if 0 <? count_byte "/"%char s then last_element s
      else if Ascii.eqb c "/"%char then s
      else String c s
  end.

(** [filepath.Base] on Unix. *)
Definition Base (path : string) : string :=
  if String.eqb path "" then "."
  else
    let path := last_element (strip_trailing_slashes path) in
    if String.eqb path "" then "/" else path.

(** U+1F4C4 and U+1F4C1 in UTF-8. *)
Definition symbol_file : string :=
  String (ascii_of_nat 240) (String (ascii_of_nat 159)
    (String (ascii_of_nat 147) (String (ascii_of_nat 132) ""))).
Definition symbol_dir : string :=
  String (ascii_of_nat 240) (String (ascii_of_nat 159)
    (String (ascii_of_nat 147) (String (ascii_of_nat 129) ""))).

(** [depth] as the walk function of [showDirectoryTree] computes it from
    the relative path. *)
Definition tree_depth (rel : string) : Z :=
  let depth := Z.of_nat (List.length (SplitList rel)) - 1 in
  if String.eqb rel "." then 0 else depth.

(** The [for i := 0; i < depth; i++] loop that builds the indentation. *)
Fixpoint indent_loop (rounds : nat) (indent : string) : string :=
  match rounds with
  | O => indent
  | S rounds' => indent_loop rounds' (indent ++ "  ")
  end.

(** The walk function of [showDirectoryTree] on one entry: what
    [filepath.Walk] passes it ([arg]: the info, or an error), what
    [filepath.Rel(root, path)] answers ([rel], [None] for an error); the
    result is what it prints and what it returns. *)
Definition showDirectoryTree_visit (maxDepth : Z) (path : string)
    (arg : stat_result) (rel : option string)
  : outcome (list string * walk_ret) :=
  match arg with
  | StatErr _ => Returned ([], RetNil)
  | StatOk info =>
      match rel with
      | None => Returned ([], RetNil)
      | Some rel =>
          let depth := tree_depth rel in
          if maxDepth <? depth then
            Returned ([], if IsDir info then RetSkipDir else RetNil)
          else
            let indent := indent_loop (Z.to_nat depth) "" in
            let symbol := if IsDir info then symbol_dir else symbol_file in
            let name := if depth =? 0 then path else Base path in
            let entry := indent ++ symbol ++ " " ++ name in
            if IsDir info then Returned ([entry; LF], RetNil)
            else
              match FormatBytes (Size info) with
              | Returned size =>
                  Returned ([entry; " (" ++ size ++ ")"; LF], RetNil)
              | Panicked => Panicked
              | Diverged => Diverged
              end
      end
  end.

(** * Properties *)

(** ** int64 *)

Lemma wrap_in_range (z : Z) : Int64.in_range z -> Int64.wrap z = z.
Proof.
  unfold Int64.in_range, Int64.wrap, Int64.min_int, Int64.max_int,
    Int64.modulus.
  intros H. rewrite Z.mod_small by lia. lia.
Qed.

Lemma add_in_range (a b : Z) :
  Int64.in_range (a + b) -> atomic_AddInt64 a b = a + b.
Proof. intros H. unfold atomic_AddInt64, Int64.add. now apply wrap_in_range. Qed.

Lemma mul_in_range (a b : Z) :
  Int64.in_range (a * b) -> Int64.mul a b = a * b.
Proof. intros H. unfold Int64.mul. now apply wrap_in_range. Qed.

(** ** Path Classifier *)

Lemma append_assoc (a b c : string) : (a ++ b) ++ c = a ++ b ++ c.
Proof. induction a as [|x a IH]; simpl; [reflexivity | now rewrite IH]. Qed.

Lemma HasPrefix_iff (s prefix : string) :
  HasPrefix s prefix = true <-> exists rest, s = prefix ++ rest.
Proof.
  revert s. induction prefix as [|c prefix IH]; intros s; simpl.
  - split; [intros _; now exists s | reflexivity].
  - destruct s as [|d s].
    + split; [discriminate | intros [rest H]; discriminate].
    + rewrite andb_true_iff, Ascii.eqb_eq, IH. split.
      * intros [-> [rest ->]]. now exists rest.
      * intros [rest H]. injection H as -> ->. split; [reflexivity | now exists rest].
Qed.

Lemma skip_loop_iff (path : string) (l : list string) :
  skip_loop path l = true <->
  exists e, In e l /\ (path = e \/ exists rest, path = e ++ "/" ++ rest).
Proof.
  induction l as [|e l IH]; simpl.
  - split; [discriminate | intros [e [[] _]]].
  - destruct (String.eqb path e || HasPrefix path (e ++ "/")) eqn:E.
    + split; [intros _ | reflexivity].
      exists e. split; [now left |].
      apply orb_true_iff in E. destruct E as [E | E].
      * left. now apply String.eqb_eq.
      * right. apply HasPrefix_iff in E. destruct E as [rest ->].
        exists rest. apply append_assoc.
    + rewrite IH. apply orb_false_iff in E. destruct E as [E1 E2].
      split; intros [e' [Hin Hm]].
      * exists e'. split; [now right | exact Hm].
      * destruct Hin as [<- | Hin]; [| now exists e'].
        exfalso. destruct Hm as [-> | [rest ->]].
        -- rewrite String.eqb_refl in E1. discriminate.
        -- assert (H : HasPrefix (e ++ "/" ++ rest) (e ++ "/") = true).
           { apply HasPrefix_iff. exists rest. symmetry. apply append_assoc. }
           simpl in H. congruence.
Qed.

(** C5. [ShouldSkipPath] is a pure test on the string: it is true exactly
    when the path equals one of the eight deny entries or starts with an
    entry followed by the separator; true on /proc, /proc/cpuinfo, /sys,
    /dev/null and /var/tmp, false on /home, /etc and /var/log. *)
Theorem ShouldSkipPath_denylist :
  skipPaths = ["/proc"; "/sys"; "/dev"; "/run"; "/tmp";
               "/var/run"; "/var/lock"; "/var/tmp"] /\
  (forall path : string,
     ShouldSkipPath path = true <->
     exists entry, In entry skipPaths /\
       (path = entry \/ exists rest, path = entry ++ "/" ++ rest)) /\
  ShouldSkipPath "/proc" = true /\
  ShouldSkipPath "/proc/cpuinfo" = true /\
  ShouldSkipPath "/sys" = true /\
  ShouldSkipPath "/dev/null" = true /\
  ShouldSkipPath "/var/tmp" = true /\
  ShouldSkipPath "/home" = false /\
  ShouldSkipPath "/etc" = false /\
  ShouldSkipPath "/var/log" = false.
Proof.
  split; [reflexivity |].
  split; [intros path; apply skip_loop_iff |].
  repeat split; reflexivity.
Qed.

(** ** Byte Formatter *)

Lemma pow1024_pos (j : nat) : 0 < 1024 ^ Z.of_nat j.
Proof. apply Z.pow_pos_nonneg; lia. Qed.

Lemma pow1024_succ (j : nat) : 1024 ^ Z.of_nat (S j) = 1024 * 1024 ^ Z.of_nat j.
Proof. rewrite Nat2Z.inj_succ. apply Z.pow_succ_r. lia. Qed.

(** The loop leaves after [j] rounds when [n] has [j + 1] digits in base
    1024, with [div] multiplied by [1024 ^ j] and no overflow. *)
Lemma format_loop_rounds (j : nat) :
  forall (fuel : nat) (n div exp : Z),
    (j <= fuel)%nat ->
    0 < div ->
    div * 1024 ^ Z.of_nat j <= Int64.max_int ->
    1024 ^ Z.of_nat j <= n < 1024 ^ Z.of_nat (S j) ->
    format_loop fuel n div exp = Some (div * 1024 ^ Z.of_nat j, exp + Z.of_nat j).
Proof.
  induction j as [|j IH]; intros fuel n div exp Hfuel Hdiv Hmax Hn.
  - change (1024 ^ Z.of_nat 1) with 1024 in Hn.
    change (1024 ^ Z.of_nat 0) with 1 in *.
    assert (E : (n >=? 1024) = false) by (rewrite Z.geb_leb; apply Z.leb_gt; lia).
    destruct fuel; simpl; rewrite E; do 2 f_equal; lia.
  - rewrite !pow1024_succ in Hn. rewrite pow1024_succ in Hmax.
    pose proof (pow1024_pos j) as Hp.
    assert (E : (n >=? 1024) = true) by (rewrite Z.geb_leb; apply Z.leb_le; nia).
    destruct fuel as [|fuel]; [lia |].
    simpl format_loop. rewrite E.
    rewrite Z.quot_div_nonneg by lia.
    rewrite mul_in_range.
    2:{ unfold Int64.in_range, Int64.min_int. split; [nia | nia]. }
    rewrite (IH fuel (n / 1024) (div * 1024) (exp + 1)).
    + rewrite pow1024_succ. do 2 f_equal; lia.
    + lia.
    + lia.
    + nia.
    + rewrite pow1024_succ. split.
      * apply Z.div_le_lower_bound; lia.
      * apply Z.div_lt_upper_bound; lia.
Qed.

(** A byte count of at least 1024 has between two and seven digits in
    base 1024. *)
Lemma digits_1024 (bytes : Z) :
  1024 <= bytes <= Int64.max_int ->
  exists k : nat,
    (k <= 5)%nat /\ 1024 ^ Z.of_nat (S k) <= bytes < 1024 ^ Z.of_nat (S (S k)).
Proof.
  unfold Int64.max_int. intros H.
  destruct (Z_lt_le_dec bytes (1024 ^ 2)); [exists 0%nat; simpl; lia |].
  destruct (Z_lt_le_dec bytes (1024 ^ 3)); [exists 1%nat; simpl; lia |].
  destruct (Z_lt_le_dec bytes (1024 ^ 4)); [exists 2%nat; simpl; lia |].
  destruct (Z_lt_le_dec bytes (1024 ^ 5)); [exists 3%nat; simpl; lia |].
  destruct (Z_lt_le_dec bytes (1024 ^ 6)); [exists 4%nat; simpl; lia |].
  exists 5%nat; simpl; lia.
Qed.

Lemma format_loop_bytes (bytes : Z) (k : nat) :
  (k <= 5)%nat ->
  1024 ^ Z.of_nat (S k) <= bytes < 1024 ^ Z.of_nat (S (S k)) ->
  format_loop 64 (Z.quot bytes 1024) 1024 0
  = Some (1024 ^ Z.of_nat (S k), Z.of_nat k).
Proof.
  intros Hk Hb.
  pose proof (pow1024_pos k) as Hp.
  rewrite !pow1024_succ in Hb.
  rewrite Z.quot_div_nonneg by lia.
  rewrite (format_loop_rounds k).
  - rewrite pow1024_succ. reflexivity.
  - lia.
  - lia.
  - assert (1024 ^ Z.of_nat k <= 1024 ^ 5) by (apply Z.pow_le_mono_r; lia).
    unfold Int64.max_int. lia.
  - rewrite pow1024_succ. split.
    + apply Z.div_le_lower_bound; lia.
    + apply Z.div_lt_upper_bound; lia.
Qed.

(** [tenths] rounds to the nearest tenth. *)
Lemma tenths_nearest (num den : Z) :
  0 <= num -> 0 < den ->
  2 * Z.abs (10 * num - tenths num den * den) <= den.
Proof.
  intros Hn Hd. unfold tenths.
  pose proof (Z.div_mod (10 * num) den ltac:(lia)) as E.
  pose proof (Z.mod_pos_bound (10 * num) den Hd) as B.
  set (q := 10 * num / den) in *. set (r := (10 * num) mod den) in *.
  destruct (2 * r <? den) eqn:C1; [apply Z.ltb_lt in C1; nia |].
  apply Z.ltb_ge in C1.
  destruct (den <? 2 * r) eqn:C2; [apply Z.ltb_lt in C2; nia |].
  apply Z.ltb_ge in C2.
  destruct (Z.even q); nia.
Qed.

Lemma unit_letter_in_bounds (k : nat) :
  (k <= 5)%nat -> exists c, String.get k unit_letters = Some c.
Proof.
  intros H.
  do 6 (destruct k as [|k]; [simpl; eauto |]). lia.
Qed.

Lemma FormatBytes_small (bytes : Z) :
  bytes < 1024 -> FormatBytes bytes = Returned (itoa bytes ++ " B").
Proof.
  intros H. unfold FormatBytes.
  now replace (bytes <? 1024) with true by (symmetry; apply Z.ltb_lt; lia).
Qed.

Lemma FormatBytes_large (bytes : Z) (k : nat) :
  (k <= 5)%nat ->
  1024 ^ Z.of_nat (S k) <= bytes < 1024 ^ Z.of_nat (S (S k)) ->
  exists c,
    String.get k unit_letters = Some c /\
    FormatBytes bytes =
    Returned
      (sprintf_f1
         (PrimFloat.div (float64_of_int64 bytes)
            (float64_of_int64 (1024 ^ Z.of_nat (S k))))
       ++ " " ++ String c "B").
Proof.
  intros Hk Hb.
  destruct (unit_letter_in_bounds k Hk) as [c Hc].
  exists c. split; [exact Hc |].
  unfold FormatBytes.
  pose proof (pow1024_pos k) as Hp. pose proof Hb as Hb'.
  rewrite !pow1024_succ in Hb'.
  replace (bytes <? 1024) with false by (symmetry; apply Z.ltb_ge; lia).
  rewrite (format_loop_bytes bytes k Hk Hb).
  rewrite Nat2Z.id, Hc. reflexivity.
Qed.

(** C4. Below 1024 the result is the decimal count followed by " B".
    From 1024 on, the count has [k + 2] digits in base 1024 for some
    [k <= 5], and the result is the count divided by [1024 ^ (k + 1)],
    printed with one decimal, a space, the [k]-th of the letters KMGTPE
    and "B".  The seven boundary values of the table print as listed. *)
Theorem FormatBytes_units (n : Z) (Hn : Int64.in_range n) :
  (n < 1024 -> FormatBytes n = Returned (itoa n ++ " B")) /\
  (1024 <= n ->
   exists (k : nat) (c : ascii),
     (k <= 5)%nat /\
     1024 ^ Z.of_nat (S k) <= n < 1024 ^ Z.of_nat (S (S k)) /\
     String.get k "KMGTPE" = Some c /\
     FormatBytes n =
     Returned
       (sprintf_f1
          (PrimFloat.div (float64_of_int64 n)
             (float64_of_int64 (1024 ^ Z.of_nat (S k))))
        ++ " " ++ String c "B")) /\
  FormatBytes 0 = Returned "0 B" /\
  FormatBytes 512 = Returned "512 B" /\
  FormatBytes 1024 = Returned "1.0 KB" /\
  FormatBytes 1536 = Returned "1.5 KB" /\
  FormatBytes 1048576 = Returned "1.0 MB" /\
  FormatBytes 1073741824 = Returned "1.0 GB" /\
  FormatBytes 1099511627776 = Returned "1.0 TB".
Proof.
  split; [apply FormatBytes_small |].
  split.
  - intros H. destruct Hn as [_ Hmax].
    destruct (digits_1024 n (conj H Hmax)) as [k [Hk Hr]].
    destruct (FormatBytes_large n k Hk Hr) as [c [Hc HF]].
    exists k, c. repeat split; try assumption; apply Hr.
  - repeat split; vm_compute; reflexivity.
Qed.

Lemma FormatBytes_units_witness :
  Int64.in_range 1536 /\ FormatBytes 1536 = Returned "1.5 KB".
Proof.
  assert (H : Int64.in_range 1536)
    by (unfold Int64.in_range, Int64.min_int, Int64.max_int; lia).
  split; [exact H |].
  exact (proj1 (proj2 (proj2 (proj2 (proj2 (proj2 (FormatBytes_units 1536 H))))))).
Defined.

(** C9. [FormatBytes] returns on every int64: a negative count takes the
    first branch and prints as the count followed by " B"; from 1024 on
    the loop ends with an exponent between 0 and 5, which indexes the six
    letters in bounds, and [div] is the matching power of 1024. *)
Theorem FormatBytes_total (n : Z) (Hn : Int64.in_range n) :
  (exists s, FormatBytes n = Returned s) /\
  (n < 0 -> FormatBytes n = Returned (itoa n ++ " B")) /\
  FormatBytes (-5) = Returned "-5 B" /\
  (1024 <= n ->
   exists div exp c,
     format_loop 64 (Z.quot n 1024) 1024 0 = Some (div, exp) /\
     0 <= exp <= 5 /\
     div = 1024 ^ (exp + 1) /\
     String.get (Z.to_nat exp) unit_letters = Some c).
Proof.
  assert (L : 1024 <= n ->
    exists k : nat, (k <= 5)%nat /\
      1024 ^ Z.of_nat (S k) <= n < 1024 ^ Z.of_nat (S (S k))).
  { intros H. apply digits_1024. split; [exact H | apply Hn]. }
  split; [| split; [| split]].
  - destruct (Z_lt_le_dec n 1024) as [Hs | Hl].
    + eexists. now apply FormatBytes_small.
    + destruct (L Hl) as [k [Hk Hr]].
      destruct (FormatBytes_large n k Hk Hr) as [c [_ HF]].
      eexists. exact HF.
  - intros H. apply FormatBytes_small. lia.
  - vm_compute. reflexivity.
  - intros H. destruct (L H) as [k [Hk Hr]].
    destruct (unit_letter_in_bounds k Hk) as [c Hc].
    exists (1024 ^ Z.of_nat (S k)), (Z.of_nat k), c.
    split; [now apply format_loop_bytes |].
    split; [lia |].
    split; [f_equal; lia |].
    now rewrite Nat2Z.id.
Qed.

Lemma FormatBytes_total_witness :
  Int64.in_range Int64.max_int /\
  exists s, FormatBytes Int64.max_int = Returned s.
Proof.
  assert (H : Int64.in_range Int64.max_int)
    by (unfold Int64.in_range, Int64.min_int, Int64.max_int; lia).
  split; [exact H |].
  exact (proj1 (FormatBytes_total Int64.max_int H)).
Defined.

(** ** Path Processor *)

(** C1. When [Lstat] succeeds, [ProcessPath] adds one to [dirCount] for a
    directory, and otherwise adds one to [fileCount] and the size to
    [bytesScanned]; whatever the entry is, it adds one to [skippedCount]
    exactly when [ShouldSkipPath] holds of the path, and it leaves
    [errorCount] and [lastError] alone.  The additions are int64
    additions, exact while the sum stays in range.  On a fresh scanner a
    13-byte file gives [fileCount = 1] and [bytesScanned = 13]. *)
Theorem ProcessPath_stat_ok
    (Lstat : string -> stat_result) (s : Scanner) (path : string)
    (info : FileInfo) (Hstat : Lstat path = StatOk info) :
  let s' := ProcessPath Lstat s path in
  (IsDir info = true ->
   dirCount s' = atomic_AddInt64 (dirCount s) 1 /\
   fileCount s' = fileCount s /\
   bytesScanned s' = bytesScanned s) /\
  (IsDir info = false ->
   fileCount s' = atomic_AddInt64 (fileCount s) 1 /\
   bytesScanned s' = atomic_AddInt64 (bytesScanned s) (Size info) /\
   dirCount s' = dirCount s) /\
  skippedCount s' =
    (if ShouldSkipPath path then atomic_AddInt64 (skippedCount s) 1
     else skippedCount s) /\
  errorCount s' = errorCount s /\
  lastError s' = lastError s /\
  (forall x d : Z, Int64.in_range (x + d) -> atomic_AddInt64 x d = x + d) /\
  (forall now gomaxprocs : Z,
     IsDir info = false -> Size info = 13 ->
     fileCount (ProcessPath Lstat (NewScanner now gomaxprocs) path) = 1 /\
     bytesScanned (ProcessPath Lstat (NewScanner now gomaxprocs) path) = 13).
Proof.
  unfold ProcessPath. rewrite Hstat. cbv zeta.
  repeat split.
  - rewrite H. now destruct (ShouldSkipPath path).
  - rewrite H. now destruct (ShouldSkipPath path).
  - rewrite H. now destruct (ShouldSkipPath path).
  - rewrite H. now destruct (ShouldSkipPath path).
  - rewrite H. now destruct (ShouldSkipPath path).
  - rewrite H. now destruct (ShouldSkipPath path).
  - now destruct (IsDir info), (ShouldSkipPath path).
  - now destruct (IsDir info), (ShouldSkipPath path).
  - now destruct (IsDir info), (ShouldSkipPath path).
  - intros x d. apply add_in_range.
  - rewrite H. now destruct (ShouldSkipPath path).
  - rewrite H, H0. now destruct (ShouldSkipPath path).
Qed.

Lemma ProcessPath_stat_ok_witness :
  let s' := ProcessPath Lstat_hello (NewScanner 0 4) "/tmp/test-file" in
  fileCount s' = 1 /\ bytesScanned s' = 13 /\ skippedCount s' = 1.
Proof.
  pose proof (ProcessPath_stat_ok Lstat_hello (NewScanner 0 4)
                "/tmp/test-file" (mkFileInfo false 13) eq_refl) as H.
  cbv zeta in *.
  destruct H as [_ [_ [Hskip [_ [_ [_ Hhello]]]]]].
  destruct (Hhello 0 4 eq_refl eq_refl) as [Hf Hb].
  split; [exact Hf |]. split; [exact Hb |].
  rewrite Hskip. reflexivity.
Defined.

(** C3, as the code has it.  When [Lstat] fails, [ProcessPath] adds one
    to [errorCount], stores "Error getting info for PATH: DETAIL" in
    [lastError] and returns: [fileCount], [dirCount], [skippedCount] and
    [bytesScanned] keep their values. *)
Theorem ProcessPath_stat_error
    (Lstat : string -> stat_result) (s : Scanner) (path detail : string)
    (Hstat : Lstat path = StatErr detail) :
  let s' := ProcessPath Lstat s path in
  errorCount s' = atomic_AddInt64 (errorCount s) 1 /\
  lastError s' = "Error getting info for " ++ path ++ ": " ++ detail /\
  fileCount s' = fileCount s /\
  dirCount s' = dirCount s /\
  skippedCount s' = skippedCount s /\
  bytesScanned s' = bytesScanned s /\
  currentPath s' = currentPath s /\
  ctx_done s' = ctx_done s.
Proof.
  unfold ProcessPath. rewrite Hstat. cbv zeta. repeat split.
Qed.

Lemma ProcessPath_stat_error_witness :
  let s' := ProcessPath Lstat_hello (NewScanner 0 4) "/gone" in
  errorCount s' = 1 /\
  lastError s' = "Error getting info for /gone: no such file or directory".
Proof.
  pose proof (ProcessPath_stat_error Lstat_hello (NewScanner 0 4)
                "/gone" "no such file or directory" eq_refl) as H.
  cbv zeta in *.
  destruct H as [He [Hl _]].
  split; [rewrite He; reflexivity | rewrite Hl; reflexivity].
Defined.

(** The message [ProcessPath] stores is not the text
    "error accessing stat for PATH: DETAIL". *)
Lemma ProcessPath_stat_error_message_differs :
  lastError (ProcessPath Lstat_hello (NewScanner 0 4) "/gone")
  <> "error accessing stat for " ++ "/gone" ++ ": "
       ++ "no such file or directory".
Proof. vm_compute. discriminate. Qed.

(** ** Runs of a scan *)

Lemma run_app (Lstat : string -> stat_result) (s1 s2 : list (actor * bool)) :
  forall st,
    run Lstat (s1 ++ s2)%list st =
    match run Lstat s1 st with
    | Some st' => run Lstat s2 st'
    | None => None
    end.
Proof.
  induction s1 as [|[a d] s1 IH]; intros st; simpl; [reflexivity |].
  destruct (step Lstat a d st); [apply IH | reflexivity].
Qed.

(** A property kept by every step is kept by every run. *)
Lemma run_invariant (Lstat : string -> stat_result) (P : sys -> Prop) :
  (forall a d st st', step Lstat a d st = Some st' -> P st -> P st') ->
  forall sched st st', run Lstat sched st = Some st' -> P st -> P st'.
Proof.
  intros Hstep sched.
  induction sched as [|[a d] sched IH]; intros st st' Hrun HP; simpl in Hrun.
  - now injection Hrun as <-.
  - destruct (step Lstat a d st) as [st1|] eqn:E; [| discriminate].
    eapply IH; [exact Hrun |]. eapply Hstep; eassumption.
Qed.

(** No step writes [startTime] or [workerCount], and none reopens the
    context. *)
Lemma step_scanner_constants (Lstat : string -> stat_result) :
  forall a d st st',
    step Lstat a d st = Some st' ->
    startTime (sc st') = startTime (sc st) /\
    workerCount (sc st') = workerCount (sc st) /\
    (ctx_done (sc st) = true -> ctx_done (sc st') = true).
Proof.
  intros a d st st' H.
  step_cases H; unfold Stop; cbn;
    repeat match goal with
           | |- context [if ?b then _ else _] => destruct b eqn:?
           end;
    cbn; intuition congruence.
Qed.

Lemma run_startTime (Lstat : string -> stat_result) :
  forall sched st st',
    run Lstat sched st = Some st' -> startTime (sc st') = startTime (sc st).
Proof.
  intros sched st st' H.
  apply (run_invariant Lstat
           (fun x => startTime (sc x) = startTime (sc st))) with (3 := eq_refl)
    in H; [exact H |].
  intros a d s1 s2 Hs HP.
  destruct (step_scanner_constants Lstat a d s1 s2 Hs) as [E _]. congruence.
Qed.

Lemma run_ctx_done (Lstat : string -> stat_result) :
  forall sched st st',
    run Lstat sched st = Some st' ->
    ctx_done (sc st) = true -> ctx_done (sc st') = true.
Proof.
  intros sched st st' H.
  apply (run_invariant Lstat (fun x => ctx_done (sc x) = true)) with (2 := H).
  intros a d s1 s2 Hs.
  apply (step_scanner_constants Lstat a d s1 s2 Hs).
Qed.

Lemma run_two_dirs :
  run Lstat_two_dirs walk_then_work
    (Start_state (NewScanner 0 1) "/r" two_dirs)
  = Some two_dirs_scanned.
Proof. vm_compute. reflexivity. Qed.

(** ** Scan Coordinator: Stop *)

(** C8. [Stop] twice, or any number of times, is [Stop] once; it sets
    the cancellation signal and touches nothing else; as a move of the
    scan it is enabled in every state, whatever the channel holds and
    wherever the walker and the workers are, and leaves them where they
    were; and no later move of anyone lowers the signal. *)
Theorem Stop_idempotent :
  (forall s, Stop (Stop s) = Stop s) /\
  (forall s n, Nat.iter (S n) Stop s = Stop s) /\
  (forall s,
     ctx_done (Stop s) = true /\
     fileCount (Stop s) = fileCount s /\
     dirCount (Stop s) = dirCount s /\
     errorCount (Stop s) = errorCount s /\
     skippedCount (Stop s) = skippedCount s /\
     bytesScanned (Stop s) = bytesScanned s /\
     startTime (Stop s) = startTime s /\
     lastError (Stop s) = lastError s /\
     currentPath (Stop s) = currentPath s) /\
  (forall Lstat d st,
     exists st',
       step Lstat CallStop d st = Some st' /\
       sc st' = Stop (sc st) /\
       chan st' = chan st /\
       wpc st' = wpc st /\
       frames st' = frames st /\
       workers st' = workers st) /\
  (forall Lstat d d' st,
     run Lstat [(CallStop, d); (CallStop, d')] st
     = run Lstat [(CallStop, d)] st) /\
  (forall Lstat d sched st st' st'',
     step Lstat CallStop d st = Some st' ->
     run Lstat sched st' = Some st'' ->
     ctx_done (sc st'') = true).
Proof.
  assert (Idem : forall s, Stop (Stop s) = Stop s).
  { intros s. unfold Stop. destruct (ctx_done s) eqn:E; cbn.
    - now rewrite E.
    - reflexivity. }
  split; [exact Idem |].
  split.
  { intros s n. induction n as [|n IH]; [reflexivity |].
    change (Nat.iter (S (S n)) Stop s) with (Stop (Nat.iter (S n) Stop s)).
    now rewrite IH. }
  split.
  { intros s. unfold Stop. destruct (ctx_done s) eqn:E; cbn; auto 10. }
  split.
  { intros Lstat d st. eexists. split; [reflexivity |]. cbn. auto. }
  split.
  { intros Lstat d d' st. cbn. unfold set_sc at 1. cbn.
    rewrite Idem. reflexivity. }
  intros Lstat d sched st st' st'' Hstop Hrun.
  apply (run_ctx_done Lstat sched st' st'' Hrun).
  cbn in Hstop. injection Hstop as <-. cbn.
  unfold Stop. destruct (ctx_done (sc st)) eqn:E; [exact E | reflexivity].
Qed.

(** A scan stopped before the walker moves: the signal is still raised
    when the workers have returned. *)
Lemma Stop_idempotent_witness :
  exists st',
    run Lstat_two_dirs (turns (Worker 0) 1 ++ turns (Worker 1) 1)%list
      (set_sc (Stop (NewScanner 0 1))
         (Start_state (NewScanner 0 1) "/r" two_dirs)) = Some st' /\
    waited st' = true /\
    ctx_done (sc st') = true.
Proof.
  eexists. split; [vm_compute; reflexivity |].
  split; [reflexivity |].
  refine (proj2 (proj2 (proj2 (proj2 (proj2 Stop_idempotent))))
            Lstat_two_dirs false
            (turns (Worker 0) 1 ++ turns (Worker 1) 1)%list
            (Start_state (NewScanner 0 1) "/r" two_dirs) _ _ eq_refl _).
  vm_compute. reflexivity.
Defined.

(** ** Scan Coordinator: the result *)

(** C10. The clock is read in [NewScanner]; no move of a scan writes
    [startTime], so the [Duration] of the result is the time from the
    construction of the scanner to the end of [Start], whenever [Start]
    was called in between, and [FilesPerSecond] is the file count over
    that duration in seconds. *)
Theorem Duration_since_NewScanner
    (Lstat : string -> stat_result) (t_new gomaxprocs : Z)
    (rootPath : string) (t : tree) (sched : list (actor * bool))
    (st : sys) (t_end : Z) (r : ScanResult)
    (Hrun : run Lstat sched
              (Start_state (NewScanner t_new gomaxprocs) rootPath t)
            = Some st)
    (Hres : Start_result st t_end = Some r) :
  startTime (NewScanner t_new gomaxprocs) = t_new /\
  Duration r = time_Since t_end t_new /\
  FilesPerSecond r =
    PrimFloat.div (float64_of_int64 (TotalFiles r)) (Seconds (Duration r)) /\
  (forall t_start : Z,
     Int64.in_range (t_end - t_new) ->
     Duration r = (t_end - t_start) + (t_start - t_new)).
Proof.
  pose proof (run_startTime Lstat sched _ _ Hrun) as Hst. cbn in Hst.
  unfold Start_result in Hres.
  destruct (waited st); [| discriminate].
  injection Hres as <-. cbn.
  rewrite Hst.
  split; [reflexivity |]. split; [reflexivity |]. split; [reflexivity |].
  intros t_start [Hlo Hhi]. unfold time_Since, time_Sub. lia.
Qed.

(** A scanner built at time 0 whose [Start], called 5 s later, ends at
    10 s with two files: the duration is 10 s and the rate 2 / 10. *)
Lemma Duration_since_NewScanner_witness :
  exists r,
    Start_result two_dirs_scanned (10 * Second) = Some r /\
    Duration r = (10 * Second - 5 * Second) + (5 * Second - 0) /\
    FilesPerSecond r = PrimFloat.div 2%float 10%float.
Proof.
  eexists. split; [reflexivity |].
  destruct (Duration_since_NewScanner Lstat_two_dirs 0 1 "/r" two_dirs
              walk_then_work two_dirs_scanned (10 * Second) _
              run_two_dirs eq_refl) as [_ [_ [Hf Hd]]].
  split.
  - apply Hd. unfold Int64.in_range, Int64.min_int, Int64.max_int, Second. lia.
  - rewrite Hf. vm_compute. reflexivity.
Defined.

(** ** Counting the entries of an uncancelled scan *)

Lemma reach_kids_pend (p : string) (kids : list (string * tree)) :
  (fix reach_kids (l : list (string * tree)) : list string :=
     match l with
     | [] => []
     | (name, k) :: l' => (reach (Join p name) k ++ reach_kids l')%list
     end) kids
  = pend_frame (join_kids p kids).
Proof.
  induction kids as [|[name k] kids IH]; [reflexivity |].
  cbn. now rewrite IH.
Qed.

Lemma v_path_visit_of (p : string) (t : tree) : v_path (visit_of p t) = p.
Proof. now destruct t as [e | | [e|] kids]. Qed.

Lemma reach_visit_of (p : string) (t : tree) :
  reach p t = v_path (visit_of p t) :: kids_pend (visit_of p t).
Proof.
  destruct t as [e | | [e|] kids]; try reflexivity.
  cbn [reach visit_of v_path]. unfold kids_pend. cbn [v_kind v_err v_kids].
  now rewrite reach_kids_pend.
Qed.

Lemma set_nth_length {A : Type} (i : nat) (a : A) (l : list A) :
  List.length (set_nth i a l) = List.length l.
Proof.
  revert i. induction l as [|b l IH]; intros [|i]; cbn; auto.
Qed.

Lemma nth_error_set_nth {A : Type} (i : nat) (a b : A) (l : list A) :
  nth_error l i = Some b -> nth_error (set_nth i a l) i = Some a.
Proof.
  revert i. induction l as [|c l IH]; intros [|i] H; cbn in *;
    try discriminate; auto.
Qed.

Lemma workers_hold_nonneg (ws : list worker) : 0 <= workers_hold ws.
Proof.
  unfold workers_hold.
  induction ws as [|w ws IH]; cbn [fold_right]; [lia |].
  destruct w; cbn [worker_holds]; lia.
Qed.

Lemma workers_hold_set_nth (i : nat) (w w' : worker) (ws : list worker) :
  nth_error ws i = Some w ->
  workers_hold (set_nth i w' ws)
  = workers_hold ws - worker_holds w + worker_holds w'.
Proof.
  unfold workers_hold.
  revert i. induction ws as [|b ws IH]; intros [|i] H; cbn [nth_error] in H;
    try discriminate; cbn [set_nth fold_right].
  - injection H as ->. lia.
  - rewrite (IH i H). lia.
Qed.

Lemma workers_hold_ge (i : nat) (w : worker) (ws : list worker) :
  nth_error ws i = Some w -> worker_holds w <= workers_hold ws.
Proof.
  unfold workers_hold.
  revert i. induction ws as [|b ws IH]; intros [|i] H; cbn [nth_error] in H;
    try discriminate; cbn [fold_right].
  - injection H as ->.
    pose proof (workers_hold_nonneg ws) as Hn. unfold workers_hold in Hn. lia.
  - specialize (IH i H). destruct b; cbn [worker_holds]; lia.
Qed.

Lemma existsb_done_set_nth (i : nat) (w' : worker) (ws : list worker) :
  is_done w' = false ->
  existsb is_done (set_nth i w' ws) = true -> existsb is_done ws = true.
Proof.
  intros Hw. revert i.
  induction ws as [|b ws IH]; intros [|i] H; cbn in *; try discriminate.
  - rewrite Hw in H. cbn in H. rewrite H. apply orb_true_r.
  - apply orb_true_iff in H. destruct H as [H | H].
    + rewrite H. reflexivity.
    + rewrite (IH i H). apply orb_true_r.
Qed.

Lemma walker_holds_nonneg (w : walker) : 0 <= walker_holds w.
Proof. destruct w; cbn; lia. Qed.

Lemma min_int_neg : Int64.min_int < 0.
Proof. reflexivity. Qed.

Lemma step_not_done (Lstat : string -> stat_result) a d st st' :
  step Lstat a d st = Some st' ->
  ctx_done (sc st') = false ->
  ctx_done (sc st) = false /\ a <> CallStop.
Proof.
  intros H Hnd. split.
  - destruct (ctx_done (sc st)) eqn:E; [| reflexivity].
    destruct (step_scanner_constants Lstat a d st st' H) as [_ [_ Hm]].
    rewrite (Hm E) in Hnd. discriminate.
  - intros ->. cbn in H. injection H as <-. cbn in Hnd.
    unfold Stop in Hnd. destruct (ctx_done (sc st)) eqn:E; cbn in Hnd; congruence.
Qed.

Section UncancelledScan.

Variable Lstat : string -> stat_result.
Variable rootPath : string.
Variable t : tree.

Lemma step_walk_inv a d st st' :
  step Lstat a d st = Some st' ->
  ctx_done (sc st') = false ->
  walk_inv rootPath t st -> walk_inv rootPath t st'.
Proof.
  intros H Hnd Hinv.
  destruct (step_not_done Lstat a d st st' H Hnd) as [Hnd0 Hns].
  clear Hnd.
  destruct Hinv as [Hw Hcl Hdn Hpool].
  step_cases H.
  all: try congruence.
  all: use_state_equations.
  all: constructor; unfold_state.
  all: try match goal with
       | |- (_ ++ _)%list = reach _ _ =>
           first
             [ exact Hw
             | rewrite <- Hw;
               cbn [pend_frames pend_frame flat_map fst snd app];
               rewrite reach_visit_of, v_path_visit_of, <- !app_assoc;
               reflexivity
             | rewrite <- Hw; unfold kids_pend;
               repeat match goal with
                      | |- context [match ?x with _ => _ end] => destruct x
                      end;
               cbn [pend_frames pend_frame flat_map fst snd app];
               rewrite ?app_nil_r, <- ?app_assoc;
               reflexivity ]
       end.
  all: try match goal with
       | |- _ = WalkClosed -> _ =>
           let X := fresh in
           intros X; first [discriminate X | congruence | auto]
       end.
  all: try match goal with
       | |- existsb is_done _ = true -> _ =>
           let X := fresh in
           intros X;
           try (apply existsb_done_set_nth in X; [| reflexivity]);
           first
             [ exact (Hdn X)
             | destruct (Hdn X) as [? ?]; congruence
             | destruct (Hdn X) as [? ?]; discriminate
             | split; [| reflexivity];
               unfold chan_closed in *;
               match goal with |- ?x = WalkClosed => destruct x end;
               congruence ]
       end.
  all: rewrite ?set_nth_length; exact Hpool.
Qed.

Hypothesis Hsmall : Z.of_nat (List.length (reach rootPath t)) <= Int64.max_int.

Lemma visited_bound st :
  walk_inv rootPath t st ->
  Z.of_nat (List.length (visited st)) <= Int64.max_int.
Proof.
  intros [Hw _ _ _]. rewrite <- Hw in Hsmall.
  rewrite length_app in Hsmall. lia.
Qed.

Lemma step_count_inv a d st st' :
  step Lstat a d st = Some st' ->
  ctx_done (sc st') = false ->
  walk_inv rootPath t st ->
  count_inv st -> count_inv st'.
Proof.
  intros H Hnd Hwalk Hinv.
  destruct (step_not_done Lstat a d st st' H Hnd) as [Hnd0 Hns].
  clear Hnd.
  pose proof (visited_bound st Hwalk) as Hb.
  pose proof (workers_hold_nonneg (workers st)) as Hwn.
  pose proof min_int_neg as Hmin.
  clear Hwalk.
  destruct Hinv as [Hc [Hn1 [Hn2 Hn3]]].
  step_cases H.
  all: try congruence.
  all: use_state_equations.
  all: constructor; unfold_state.
  all: try match goal with
       | E : nth_error (workers _) ?i = Some ?w |- _ =>
           rewrite ?(workers_hold_set_nth i w _ _ E);
           pose proof (workers_hold_ge i w _ E) as Hge;
           cbn [worker_holds] in *
       end.
  all: try match goal with
       | H : context [walker_holds ?w] |- _ =>
           pose proof (walker_holds_nonneg w) as Hwh
       end.
  all: rewrite ?length_app; cbn [List.length] in *.
  all: try (rewrite !add_in_range by (unfold Int64.in_range; lia)).
  all: lia.
Qed.

Lemma workers_hold_repeat (n : nat) : workers_hold (repeat WkSelect n) = 0.
Proof. induction n as [|n IH]; [reflexivity |]. cbn in *. exact IH. Qed.

Lemma existsb_done_repeat (n : nat) :
  existsb is_done (repeat WkSelect n) = false.
Proof. induction n as [|n IH]; [reflexivity |]. exact IH. Qed.

Lemma Start_state_inv (now gomaxprocs : Z) :
  walk_inv rootPath t (Start_state (NewScanner now gomaxprocs) rootPath t) /\
  count_inv (Start_state (NewScanner now gomaxprocs) rootPath t).
Proof.
  split; constructor; cbn.
  - now rewrite !app_nil_r.
  - discriminate.
  - now rewrite existsb_done_repeat.
  - apply repeat_length.
  - rewrite workers_hold_repeat. reflexivity.
  - lia.
Qed.

(** An uncancelled scan keeps both invariants. *)
Lemma run_uncancelled (now gomaxprocs : Z) sched st :
  run Lstat sched (Start_state (NewScanner now gomaxprocs) rootPath t)
  = Some st ->
  ctx_done (sc st) = false ->
  walk_inv rootPath t st /\ count_inv st.
Proof.
  intros Hrun.
  apply (run_invariant Lstat
           (fun x => ctx_done (sc x) = false ->
                     walk_inv rootPath t x /\ count_inv x))
    with (2 := Hrun).
  - intros a d s1 s2 Hs HP Hnd.
    destruct (step_not_done Lstat a d s1 s2 Hs Hnd) as [Hnd1 _].
    destruct (HP Hnd1) as [Hw Hc]. split.
    + eapply step_walk_inv; eassumption.
    + eapply step_count_inv; eassumption.
  - intros _. apply Start_state_inv.
Qed.

End UncancelledScan.

Lemma run_walk_inv (Lstat : string -> stat_result) (rootPath : string)
    (t : tree) (now gomaxprocs : Z) sched st :
  run Lstat sched (Start_state (NewScanner now gomaxprocs) rootPath t)
  = Some st ->
  ctx_done (sc st) = false ->
  walk_inv rootPath t st.
Proof.
  intros Hrun.
  apply (run_invariant Lstat
           (fun x => ctx_done (sc x) = false -> walk_inv rootPath t x))
    with (2 := Hrun).
  - intros a d s1 s2 Hs HP Hnd.
    destruct (step_not_done Lstat a d s1 s2 Hs Hnd) as [Hnd1 _].
    eapply step_walk_inv; eauto.
  - intros _. apply Start_state_inv.
Qed.

Lemma workers_hold_done (ws : list worker) :
  forallb is_done ws = true -> workers_hold ws = 0.
Proof.
  unfold workers_hold.
  induction ws as [|w ws IH]; cbn [forallb fold_right]; [reflexivity |].
  intros H. apply andb_true_iff in H. destruct H as [Hw Hws].
  rewrite (IH Hws). destruct w; cbn in *; congruence.
Qed.

Lemma existsb_done_all (ws : list worker) :
  forallb is_done ws = true -> ws <> [] -> existsb is_done ws = true.
Proof.
  destruct ws as [|w ws]; [congruence |].
  cbn. intros H _. apply andb_true_iff in H. destruct H as [-> _]. reflexivity.
Qed.

Lemma workerCount_NewScanner (now gomaxprocs : Z) :
  1 <= gomaxprocs < 2 ^ 62 ->
  workerCount (NewScanner now gomaxprocs) = 2 * gomaxprocs.
Proof.
  intros H. unfold NewScanner. cbn [workerCount].
  rewrite mul_in_range; [lia |].
  unfold Int64.in_range, Int64.min_int, Int64.max_int. lia.
Qed.

(** When [wg.Wait()] returns from an uncancelled scan, the walker has
    closed the channel, the channel is empty and nothing is in flight. *)
Lemma waited_uncancelled (Lstat : string -> stat_result) (rootPath : string)
    (t : tree) (now gomaxprocs : Z) sched st :
  1 <= gomaxprocs < 2 ^ 62 ->
  run Lstat sched (Start_state (NewScanner now gomaxprocs) rootPath t)
  = Some st ->
  ctx_done (sc st) = false ->
  waited st = true ->
  wpc st = WalkClosed /\ chan st = [] /\ frames st = [] /\
  visited st = reach rootPath t.
Proof.
  intros Hp Hrun Hnd Hwait.
  pose proof (run_walk_inv Lstat rootPath t now gomaxprocs sched st Hrun Hnd)
    as [Hw Hcl Hdn Hpool].
  assert (Hne : workers st <> []).
  { intros E. rewrite E in Hpool. cbn [List.length] in Hpool.
    pose proof (run_invariant Lstat
                  (fun x => workerCount (sc x) = 2 * gomaxprocs)) as Hk.
    rewrite (Hk (fun a d s1 s2 Hs HP =>
                   eq_trans (proj1 (proj2 (step_scanner_constants
                                             Lstat a d s1 s2 Hs))) HP)
               sched _ st Hrun (workerCount_NewScanner now gomaxprocs Hp))
      in Hpool.
    lia. }
  destruct (Hdn (existsb_done_all _ Hwait Hne)) as [Hc Hq].
  specialize (Hcl Hc).
  rewrite Hc, Hcl in Hw. cbn in Hw. rewrite app_nil_r in Hw.
  auto.
Qed.

Lemma reach_listable : forall (t : tree) (p : string),
  listable t = true -> List.length (reach p t) = entries t.
Proof.
  fix IH 1.
  intros [e | | [e|] kids] p H; try reflexivity; [discriminate |].
  cbn [reach entries List.length]. f_equal. cbn [listable] in H.
  induction kids as [|[n k] kids IHk]; [reflexivity |].
  apply andb_true_iff in H. destruct H as [H1 H2].
  rewrite length_app, (IH k _ H1), (IHk H2). reflexivity.
Qed.

(** C2, as the code has it.  In a completed scan that nobody stopped,
    every entry the walk reaches (all of the tree but what lies beneath a
    directory whose names cannot be read) is counted exactly once, as a
    file, as a directory or as an error: the three totals of the result
    add up to the number of entries reached, which is the number of
    entries of the tree when every directory can be listed. *)
Theorem scan_counts_each_reached_entry_once
    (Lstat : string -> stat_result) (now gomaxprocs : Z)
    (rootPath : string) (t : tree) (sched : list (actor * bool))
    (st : sys) (t_end : Z) (r : ScanResult)
    (Hprocs : 1 <= gomaxprocs < 2 ^ 62)
    (Hsmall : Z.of_nat (List.length (reach rootPath t)) <= Int64.max_int)
    (Hrun : run Lstat sched
              (Start_state (NewScanner now gomaxprocs) rootPath t)
            = Some st)
    (Huncancelled : ctx_done (sc st) = false)
    (Hres : Start_result st t_end = Some r) :
  TotalFiles r + TotalDirs r + TotalErrors r
  = Z.of_nat (List.length (reach rootPath t)) /\
  0 <= TotalFiles r /\ 0 <= TotalDirs r /\ 0 <= TotalErrors r /\
  visited st = reach rootPath t /\
  (listable t = true ->
   TotalFiles r + TotalDirs r + TotalErrors r = Z.of_nat (entries t)).
Proof.
  unfold Start_result in Hres.
  destruct (waited st) eqn:Hwait; [| discriminate].
  injection Hres as <-. cbn [TotalFiles TotalDirs TotalErrors Start_return].
  destruct (waited_uncancelled Lstat rootPath t now gomaxprocs sched st
              Hprocs Hrun Huncancelled Hwait) as [Hc [Hq [Hf Hv]]].
  destruct (run_uncancelled Lstat rootPath t Hsmall now gomaxprocs sched st
              Hrun Huncancelled) as [_ [Hcount Hnn]].
  rewrite Hc, Hq, Hv, (workers_hold_done _ Hwait) in Hcount. cbn in Hcount.
  assert (Hsum : fileCount (sc st) + dirCount (sc st) + errorCount (sc st)
                 = Z.of_nat (List.length (reach rootPath t))) by lia.
  repeat split; try apply Hnn; try assumption.
  intros Hl. rewrite Hsum. f_equal. now apply reach_listable.
Qed.

Lemma scan_counts_each_reached_entry_once_witness :
  exists r,
    Start_result two_dirs_scanned 1 = Some r /\
    TotalFiles r + TotalDirs r + TotalErrors r = 5.
Proof.
  eexists. split; [reflexivity |].
  assert (Hp : 1 <= 1 < 2 ^ 62) by lia.
  assert (Hs : Z.of_nat (List.length (reach "/r" two_dirs)) <= Int64.max_int)
    by (vm_compute; discriminate).
  exact (proj1 (scan_counts_each_reached_entry_once Lstat_two_dirs 0 1 "/r"
                  two_dirs walk_then_work two_dirs_scanned 1 _
                  Hp Hs run_two_dirs eq_refl eq_refl)).
Defined.

(** A completed, uncancelled scan of a tree of three entries whose totals
    add up to two: the file beneath the directory that cannot be listed
    is never reached. *)
Lemma scan_misses_entries_below_unlistable_dir :
  exists r,
    run Lstat_locked walk_locked
      (Start_state (NewScanner 0 1) "/r" locked_dir) = Some locked_scanned /\
    ctx_done (sc locked_scanned) = false /\
    Start_result locked_scanned 1 = Some r /\
    entries locked_dir = 3%nat /\
    TotalFiles r + TotalDirs r + TotalErrors r = 2 /\
    TotalFiles r + TotalDirs r + TotalErrors r
    <> Z.of_nat (entries locked_dir).
Proof.
  eexists.
  split; [vm_compute; reflexivity |].
  split; [reflexivity |].
  split; [reflexivity |].
  split; [reflexivity |].
  split; [reflexivity |].
  vm_compute. discriminate.
Qed.

(** ** Tree Walker: cancellation *)

Lemma length_tl_le {A : Type} (l : list A) :
  (List.length (tl l) <= List.length l)%nat.
Proof. destruct l; cbn; lia. Qed.

Lemma concat_tl_le {A : Type} (l : list (list A)) :
  (List.length (List.concat (tl l)) <= List.length (List.concat l))%nat.
Proof. destruct l; cbn; [lia |]. rewrite length_app. lia. Qed.

Lemma skipn_S_tl {A : Type} (k : nat) :
  forall l : list A, skipn (S k) l = tl (skipn k l).
Proof.
  induction k as [|k IH]; intros [|x l]; try reflexivity.
  change (skipn (S (S k)) (x :: l)) with (skipn (S k) l).
  change (skipn (S k) (x :: l)) with (skipn k l).
  apply IH.
Qed.

Lemma skipn_cons_tl {A : Type} (k : nat) (l : list A) (p : A) (q : list A) :
  skipn k l = p :: q -> skipn (S k) l = q.
Proof. intros H. now rewrite skipn_S_tl, H. Qed.

Lemma step_quiet (Lstat : string -> stat_result) st0 a d st st' :
  step Lstat a d st = Some st' -> quiet_since st0 st -> quiet_since st0 st'.
Proof.
  intros H Hq. unfold quiet_since in Hq.
  step_cases H.
  all: use_state_equations.
  all: destruct Hq as [Hd [Hi [Hs [Hc [Hl [Hcc [k Hk]]]]]]].
  all: unfold_state.
  all: try discriminate.
  all: try congruence.
  all: unfold quiet_since; unfold_state.
  all: unfold Stop; rewrite ?Hd; unfold_state.
  all: repeat match goal with
              | |- context [if ?b then _ else _] => destruct b
              end; unfold_state.
  all: repeat match goal with |- _ /\ _ => split end;
    try assumption; try reflexivity.
  all: try (exists k; assumption).
  all: try (exists (S k); symmetry; eapply skipn_cons_tl; symmetry; eassumption).
  all: cbn [List.length List.concat] in *; rewrite ?length_app in *;
    cbn [List.length] in *.
  all: try lia.
  all: try match goal with |- context [v_kind ?v] => destruct (v_kind v) end.
  all: try lia.
  all: try (etransitivity; [apply length_tl_le | assumption]).
  all: try (etransitivity; [apply concat_tl_le | assumption]).
Qed.

Lemma run_quiet (Lstat : string -> stat_result) sched st st' :
  ctx_done (sc st) = true ->
  walker_idle (wpc st) = true ->
  run Lstat sched st = Some st' ->
  quiet_since st st'.
Proof.
  intros Hd Hi Hrun.
  apply (run_invariant Lstat (quiet_since st)) with (2 := Hrun).
  - intros a d s1 s2. apply step_quiet.
  - unfold quiet_since. repeat split; auto. now exists 0%nat.
Qed.

(** C6, as the code has it.  Once the signal is raised and the walker is
    not inside the body of the walk function, every later invocation of
    the walk function returns [SkipDir] at its first [select]: whatever
    the other goroutines do, the walker sends no further path, records no
    further current path and enters no further directory (the stack of
    [filepath.Walk] never grows and gets no new entries), and the channel
    only loses paths from its front. *)
Theorem walker_quiet_once_cancelled
    (Lstat : string -> stat_result) (st : sys) (sched : list (actor * bool))
    (st' : sys)
    (Hdone : ctx_done (sc st) = true)
    (Hidle : walker_idle (wpc st) = true)
    (Hrun : run Lstat sched st = Some st') :
  ctx_done (sc st') = true /\
  walker_idle (wpc st') = true /\
  sent st' = sent st /\
  currentPath (sc st') = currentPath (sc st) /\
  (List.length (frames st') <= List.length (frames st))%nat /\
  (List.length (List.concat (frames st'))
   <= List.length (List.concat (frames st)))%nat /\
  (exists k : nat, chan st' = skipn k (chan st)) /\
  (forall v d,
     wpc st' = WalkSelect v ->
     exists st'',
       step Lstat Walker d st' = Some st'' /\
       sc st'' = sc st' /\ chan st'' = chan st' /\ sent st'' = sent st' /\
       wpc st'' = WalkNext /\
       frames st'' = match v_kind v with
                     | KFile => tl (frames st')
                     | _ => frames st'
                     end).
Proof.
  pose proof (run_quiet Lstat sched st st' Hdone Hidle Hrun) as Hq.
  destruct Hq as [Hd [Hi [Hs [Hc [Hl [Hcc Hk]]]]]].
  repeat (split; [assumption |]).
  intros v d Hv. eexists.
  unfold step, walker_step. rewrite Hv, Hd.
  split; [reflexivity |]. cbn. auto.
Qed.

Lemma walker_quiet_once_cancelled_witness :
  exists st',
    run Lstat_two_dirs stop_at_first_file
      (Start_state (NewScanner 0 1) "/r" two_dirs) = Some two_dirs_stopped /\
    run Lstat_two_dirs (turns Walker 6 ++ turns (Worker 0) 7)%list
      two_dirs_stopped = Some st' /\
    sent st' = ["/r"; "/r/d1"] /\
    wpc st' = WalkClosed.
Proof.
  eexists.
  split; [vm_compute; reflexivity |].
  split; [vm_compute; reflexivity |].
  split; [| reflexivity].
  refine (proj1 (proj2 (proj2
            (walker_quiet_once_cancelled Lstat_two_dirs two_dirs_stopped
               (turns Walker 6 ++ turns (Worker 0) 7)%list _
               eq_refl eq_refl _)))).
  vm_compute. reflexivity.
Defined.

(** A scan of two directories stopped when the walk function is invoked
    on the file of the first: the walk function returns [SkipDir], and
    [filepath.Walk] goes on to the second directory, calls [lstat] on it
    and reads its names before the walk function turns it down. *)
Lemma walk_goes_on_after_cancel :
  exists st',
    run Lstat_two_dirs stop_at_first_file
      (Start_state (NewScanner 0 1) "/r" two_dirs) = Some two_dirs_stopped /\
    ctx_done (sc two_dirs_stopped) = true /\
    walker_idle (wpc two_dirs_stopped) = true /\
    run Lstat_two_dirs (turns Walker 2) two_dirs_stopped = Some st' /\
    fslog st' =
      (fslog two_dirs_stopped ++ [FsLstat "/r/d2"; FsReadDir "/r/d2"])%list /\
    visited st' = (visited two_dirs_stopped ++ ["/r/d2"])%list /\
    wpc st' <> WalkClosed.
Proof.
  eexists.
  split; [vm_compute; reflexivity |].
  split; [reflexivity |].
  split; [reflexivity |].
  split; [vm_compute; reflexivity |].
  split; [reflexivity |].
  split; [reflexivity |].
  discriminate.
Qed.

(** ** Tree Walker: entries that cannot be visited *)

(** As long as a worker has not returned, the walker or a worker can
    move: a scan is never stuck. *)
Lemma not_waited (ws : list worker) :
  forallb is_done ws = false ->
  exists i w, nth_error ws i = Some w /\ is_done w = false.
Proof.
  induction ws as [|w ws IH]; cbn; [discriminate |].
  destruct (is_done w) eqn:E; cbn.
  - intros H. destruct (IH H) as [i [w' [Hn Hw]]]. now exists (S i), w'.
  - intros _. now exists 0%nat, w.
Qed.

Lemma scan_progress (Lstat : string -> stat_result) (st : sys) :
  waited st = false ->
  exists a d st', a <> CallStop /\ step Lstat a d st = Some st'.
Proof.
  intros H. destruct (not_waited _ H) as [i [w [Hn Hw]]].
  destruct (worker_step Lstat i false st) as [st'|] eqn:Ek.
  { exists (Worker i), false, st'. split; [discriminate | exact Ek]. }
  destruct (walker_step false st) as [st'|] eqn:Ea.
  { exists Walker, false, st'. split; [discriminate | exact Ea]. }
  exfalso.
  unfold worker_step in Ek. rewrite Hn in Ek.
  unfold walker_step in Ea.
  destruct w; try discriminate.
  - unfold select2, chan_closed in *.
    destruct (chan st) as [|p q]; [| destruct (ctx_done (sc st)); discriminate].
    destruct (wpc st); cbn in *;
      repeat match type of Ea with
             | context [match ?x with _ => _ end] => destruct x
             end;
      first [ discriminate Ea | discriminate Ek
            | destruct (ctx_done (sc st)); discriminate ].
  - destruct (Lstat path); [destruct (IsDir info) |]; discriminate.
Qed.

(** Every move but [Stop] uses up one of the moves left. *)
Lemma frame_cost_join_kids (p : string) (kids : list (string * tree)) :
  frame_cost (join_kids p kids)
  = (fix cost_kids (l : list (string * tree)) : nat :=
       match l with
       | [] => O
       | (_, k) :: l' => (cost k + cost_kids l')%nat
       end) kids.
Proof.
  induction kids as [|[n k] kids IH]; [reflexivity |].
  cbn. now rewrite <- IH.
Qed.

Lemma cost_visit_of (p : string) (t : tree) :
  cost t = (8 + kids_cost (visit_of p t))%nat.
Proof.
  destruct t as [e | | [e|] kids]; try reflexivity.
  unfold kids_cost. cbn [visit_of v_kind v_err v_kids cost].
  rewrite frame_cost_join_kids. lia.
Qed.

Lemma frames_cost_tl (frs : list (list (string * tree))) :
  (frames_cost (tl frs) <= frames_cost frs)%nat.
Proof. destruct frs; cbn; lia. Qed.

Lemma workers_cost_set_nth (i : nat) (w w' : worker) (ws : list worker) :
  nth_error ws i = Some w ->
  (workers_cost (set_nth i w' ws) + worker_cost w
   = workers_cost ws + worker_cost w')%nat.
Proof.
  unfold workers_cost.
  revert i. induction ws as [|b ws IH]; intros [|i] H; cbn [nth_error] in H;
    try discriminate; cbn [set_nth fold_right].
  - injection H as ->. lia.
  - specialize (IH i H). lia.
Qed.

Lemma frames_cost_cons f frs :
  frames_cost (f :: frs) = (1 + frame_cost f + frames_cost frs)%nat.
Proof. reflexivity. Qed.

Lemma frame_cost_cons p t f :
  frame_cost ((p, t) :: f) = (cost t + frame_cost f)%nat.
Proof. reflexivity. Qed.

Lemma step_moves_left (Lstat : string -> stat_result) a d st st' :
  a <> CallStop ->
  step Lstat a d st = Some st' ->
  (moves_left st' < moves_left st)%nat /\
  ctx_done (sc st') = ctx_done (sc st).
Proof.
  intros Ha H. unfold moves_left.
  step_cases H.
  all: try congruence.
  all: use_state_equations.
  all: unfold_state.
  all: (split; [| congruence]).
  all: try match goal with
       | E : nth_error (workers _) ?i = Some ?w |- _ =>
           pose proof (fun w' => workers_cost_set_nth i w w' _ E) as Hset;
           cbn [worker_cost] in Hset
       end.
  all: rewrite ?length_app, ?frames_cost_cons, ?frame_cost_cons;
    cbn [List.length walker_cost] in *.
  all: rewrite ?(cost_visit_of s t).
  all: try match goal with
       | |- context [tl ?frs] => pose proof (frames_cost_tl frs)
       end.
  all: unfold kids_cost.
  all: repeat match goal with
              | |- context [match ?x with _ => _ end] => destruct x
              end.
  all: rewrite ?frames_cost_cons.
  all: try match goal with
       | Hset : forall w', _ |- context [set_nth _ ?w' _] =>
           specialize (Hset w'); cbn [worker_cost] in Hset
       end.
  all: try (cbn [frames_cost frame_cost fold_right]; lia).
Qed.

Lemma step_not_stop_ctx (Lstat : string -> stat_result) a d st st' :
  a <> CallStop ->
  step Lstat a d st = Some st' ->
  ctx_done (sc st') = ctx_done (sc st).
Proof. intros Ha H. now apply (step_moves_left Lstat a d st st'). Qed.

(** From any state of a scan some schedule without [Stop] brings every
    worker to its return, in at most [moves_left] moves. *)
Lemma scan_completes (Lstat : string -> stat_result) :
  forall (n : nat) (st : sys),
    (moves_left st <= n)%nat ->
    exists sched st',
      Forall (fun c => fst c <> CallStop) sched /\
      (List.length sched <= n)%nat /\
      run Lstat sched st = Some st' /\
      waited st' = true /\
      ctx_done (sc st') = ctx_done (sc st).
Proof.
  induction n as [|n IH]; intros st Hn.
  - destruct (waited st) eqn:Hw.
    + exists [], st. cbn. auto.
    + destruct (scan_progress Lstat st Hw) as [a [d [st1 [Ha Hs]]]].
      pose proof (step_moves_left Lstat a d st st1 Ha Hs). lia.
  - destruct (waited st) eqn:Hw.
    + exists [], st. cbn. repeat split; auto; lia.
    + destruct (scan_progress Lstat st Hw) as [a [d [st1 [Ha Hs]]]].
      destruct (step_moves_left Lstat a d st st1 Ha Hs) as [Hlt Hc].
      destruct (IH st1 ltac:(lia)) as [sched [st' [Hf [Hl [Hr [Hwt Hc']]]]]].
      exists ((a, d) :: sched), st'. repeat split.
      * constructor; assumption.
      * cbn. lia.
      * cbn. now rewrite Hs.
      * assumption.
      * congruence.
Qed.

(** Every schedule without [Stop] stops within [moves_left] moves. *)
Lemma run_bounded (Lstat : string -> stat_result) :
  forall sched st st',
    Forall (fun c => fst c <> CallStop) sched ->
    run Lstat sched st = Some st' ->
    (List.length sched + moves_left st' <= moves_left st)%nat.
Proof.
  induction sched as [|[a d] sched IH]; intros st st' Hf Hr; cbn in *.
  - injection Hr as <-. lia.
  - destruct (step Lstat a d st) as [st1|] eqn:E; [| discriminate].
    inversion Hf as [|? ? Ha Hf']; subst. cbn in Ha.
    pose proof (step_moves_left Lstat a d st st1 Ha E) as [Hlt _].
    specialize (IH st1 st' Hf' Hr). lia.
Qed.

(** The four moves of the walker on an entry that failed [lstat] or
    whose names could not be read, when nobody has called [Stop]. *)
Lemma walker_error_moves (Lstat : string -> stat_result) (st : sys)
    (p e : string) (t0 : tree) (more : list (string * tree))
    (rest : list (list (string * tree))) :
  wpc st = WalkNext ->
  frames st = ((p, t0) :: more) :: rest ->
  t0 = Gone e \/ (exists kids, t0 = Dir (Some e) kids) ->
  ctx_done (sc st) = false ->
  run Lstat (turns Walker 4) st =
  Some (mkSys (setLastError (add_errorCount (sc st) 1) (msg_accessing p e))
          (chan st) WalkNext (more :: rest) (workers st)
          (fslog st ++ fs_ops p t0)%list (visited st ++ [p])%list (sent st)).
Proof.
  intros Hw Hf Ht Hnd.
  unfold turns. cbn [repeat run].
  unfold step at 1, walker_step. rewrite Hw, Hf.
  destruct Ht as [-> | [kids ->]];
    cbn; rewrite Hnd; cbn; reflexivity.
Qed.

(** C7. An entry that cannot be visited costs the walker one addition to
    [errorCount] and one [lastError] message, after which it is back in
    [filepath.Walk] with the remaining siblings untouched and nothing
    sent; as long as nobody calls [Stop], the walker closes the channel,
    and [Start] gets past [wg.Wait()], only when every entry the walk
    reaches has been visited, failed entries or not.  A scan is never
    stuck and never runs forever: until [wg.Wait()] returns the walker or
    a worker can move, every schedule without [Stop] ends within
    [moves_left] moves, and some such schedule brings every worker to its
    return. *)
Theorem walker_survives_unvisitable_entries :
  (forall (Lstat : string -> stat_result) (st : sys) (p e : string)
          (t0 : tree) (more : list (string * tree))
          (rest : list (list (string * tree))),
     wpc st = WalkNext ->
     frames st = ((p, t0) :: more) :: rest ->
     t0 = Gone e \/ (exists kids, t0 = Dir (Some e) kids) ->
     ctx_done (sc st) = false ->
     exists st',
       run Lstat (turns Walker 4) st = Some st' /\
       errorCount (sc st') = atomic_AddInt64 (errorCount (sc st)) 1 /\
       lastError (sc st') = "Error accessing " ++ p ++ ": " ++ e /\
       fileCount (sc st') = fileCount (sc st) /\
       dirCount (sc st') = dirCount (sc st) /\
       ctx_done (sc st') = false /\
       wpc st' = WalkNext /\
       frames st' = more :: rest /\
       visited st' = (visited st ++ [p])%list /\
       sent st' = sent st /\
       chan st' = chan st) /\
  (forall (Lstat : string -> stat_result) (now gomaxprocs : Z)
          (rootPath : string) (t : tree) (sched : list (actor * bool))
          (st : sys),
     run Lstat sched (Start_state (NewScanner now gomaxprocs) rootPath t)
     = Some st ->
     ctx_done (sc st) = false ->
     (wpc st = WalkClosed -> visited st = reach rootPath t) /\
     (1 <= gomaxprocs < 2 ^ 62 -> waited st = true ->
      wpc st = WalkClosed /\ visited st = reach rootPath t)) /\
  (forall (Lstat : string -> stat_result) (st : sys),
     waited st = false ->
     exists a d st', a <> CallStop /\ step Lstat a d st = Some st') /\
  (forall (Lstat : string -> stat_result) (sched : list (actor * bool))
          (st st' : sys),
     Forall (fun c => fst c <> CallStop) sched ->
     run Lstat sched st = Some st' ->
     (List.length sched + moves_left st' <= moves_left st)%nat) /\
  (forall (Lstat : string -> stat_result) (st : sys),
     exists sched st',
       Forall (fun c => fst c <> CallStop) sched /\
       run Lstat sched st = Some st' /\
       waited st' = true /\
       ctx_done (sc st') = ctx_done (sc st)).
Proof.
  split; [| split; [| split; [exact scan_progress |
                              split; [exact run_bounded |]]]].
  3:{ intros Lstat st.
      destruct (scan_completes Lstat (moves_left st) st (le_n _))
        as [sched [st' [Hf [_ [Hr [Hw Hc]]]]]].
      exists sched, st'. auto. }
  - intros Lstat st p e t0 more rest Hw Hf Ht Hnd.
    eexists. split; [apply walker_error_moves; eassumption |].
    cbn. auto 12.
  - intros Lstat now gomaxprocs rootPath t sched st Hrun Hnd. split.
    + intros Hc.
      destruct (run_walk_inv Lstat rootPath t now gomaxprocs sched st
                  Hrun Hnd) as [Hw Hcl _ _].
      rewrite Hc, (Hcl Hc) in Hw. cbn in Hw. now rewrite app_nil_r in Hw.
    + intros Hp Hwait.
      destruct (waited_uncancelled Lstat rootPath t now gomaxprocs sched st
                  Hp Hrun Hnd Hwait) as [Hc [_ [_ Hv]]].
      auto.
Qed.

(** The scan of the root with a directory that cannot be listed: one
    error, its message, and the walk complete. *)
Lemma walker_survives_unvisitable_entries_witness :
  run Lstat_locked walk_locked
    (Start_state (NewScanner 0 1) "/r" locked_dir) = Some locked_scanned /\
  errorCount (sc locked_scanned) = 1 /\
  lastError (sc locked_scanned)
  = "Error accessing /r/locked: permission denied" /\
  wpc locked_scanned = WalkClosed /\
  visited locked_scanned = reach "/r" locked_dir.
Proof.
  assert (Hrun : run Lstat_locked walk_locked
                   (Start_state (NewScanner 0 1) "/r" locked_dir)
                 = Some locked_scanned) by (vm_compute; reflexivity).
  split; [exact Hrun |].
  split; [reflexivity |]. split; [reflexivity |].
  refine (proj2 (proj1 (proj2 walker_survives_unvisitable_entries)
                   Lstat_locked 0 1 "/r" locked_dir walk_locked
                   locked_scanned Hrun eq_refl)
            _ eq_refl).
  lia.
Defined.

(** ** Worker Pool: a worker left alone runs ProcessPath *)

Lemma worker_runs_ProcessPath (Lstat : string -> stat_result) (i : nat)
    (st : sys) (path : string) :
  nth_error (workers st) i = Some (WkGot path) ->
  exists n st',
    run Lstat (turns (Worker i) n) st = Some st' /\
    sc st' = ProcessPath Lstat (sc st) path /\
    nth_error (workers st') i = Some WkSelect /\
    chan st' = chan st /\ wpc st' = wpc st.
Proof.
  intros H.
  pose proof (fun w => nth_error_set_nth i w _ _ H) as Hset.
  assert (Hset2 : forall w w',
             nth_error (set_nth i w' (set_nth i w (workers st))) i = Some w').
  { intros w w'. eapply nth_error_set_nth. apply Hset. }
  assert (Hset3 : forall w w' w'',
             nth_error (set_nth i w'' (set_nth i w' (set_nth i w (workers st))))
               i = Some w'').
  { intros w w' w''. eapply nth_error_set_nth. apply Hset2. }
  unfold ProcessPath.
  destruct (Lstat path) as [info | err] eqn:E.
  - destruct (IsDir info) eqn:D.
    + exists 2%nat. eexists. unfold turns. cbn [repeat run].
      unfold step at 1, worker_step. rewrite H, E, D.
      unfold step, worker_step. cbn [workers set_worker set_workers set_sc].
      rewrite Hset. split; [reflexivity |].
      destruct (ShouldSkipPath path); cbn; rewrite Hset2; auto.
    + exists 3%nat. eexists. unfold turns. cbn [repeat run].
      unfold step at 1, worker_step. rewrite H, E, D.
      unfold step at 1, worker_step.
      cbn [workers set_worker set_workers set_sc].
      rewrite Hset.
      unfold step, worker_step. cbn [workers set_worker set_workers set_sc].
      rewrite Hset2. split; [reflexivity |].
      destruct (ShouldSkipPath path); cbn; rewrite Hset3; auto.
  - exists 2%nat. eexists. unfold turns. cbn [repeat run].
    unfold step at 1, worker_step. rewrite H, E.
    unfold step, worker_step. cbn [workers set_worker set_workers set_sc].
    rewrite Hset. split; [reflexivity |].
    cbn. rewrite Hset2. auto.
Qed.

(** * Properties of the scan as a whole, the reporter and the listing *)

(** ** What a scan adds up to *)

Lemma wrap_wrap_add (x d : Z) :
  Int64.wrap (Int64.wrap x + d) = Int64.wrap (x + d).
Proof.
  unfold Int64.wrap, Int64.modulus.
  replace ((x + 2 ^ 63) mod 2 ^ 64 - 2 ^ 63 + d + 2 ^ 63)
    with ((x + 2 ^ 63) mod 2 ^ 64 + d) by lia.
  rewrite Zplus_mod_idemp_l. f_equal. f_equal. lia.
Qed.

Lemma add_wrap (x d : Z) :
  atomic_AddInt64 (Int64.wrap x) d = Int64.wrap (x + d).
Proof. apply wrap_wrap_add. Qed.

Lemma sum_w_app (f : string -> Z) (l1 l2 : list string) :
  sum_w f (l1 ++ l2) = sum_w f l1 + sum_w f l2.
Proof.
  unfold sum_w. induction l1 as [|p l1 IH]; cbn [app fold_right]; lia.
Qed.

Lemma sum_w_cons (f : string -> Z) (p : string) (l : list string) :
  sum_w f (p :: l) = f p + sum_w f l.
Proof. reflexivity. Qed.

Lemma sum_w_nil (f : string -> Z) : sum_w f [] = 0.
Proof. reflexivity. Qed.

Lemma workers_sum_set_nth (g : worker -> Z) (i : nat) (w w' : worker)
    (ws : list worker) :
  nth_error ws i = Some w ->
  workers_sum g (set_nth i w' ws) = workers_sum g ws - g w + g w'.
Proof.
  unfold workers_sum.
  revert i. induction ws as [|b ws IH]; intros [|i] H; cbn [nth_error] in H;
    try discriminate; cbn [set_nth fold_right].
  - injection H as ->. lia.
  - rewrite (IH i H). lia.
Qed.

Lemma workers_sum_repeat (g : worker -> Z) (n : nat) :
  g WkSelect = 0 -> workers_sum g (repeat WkSelect n) = 0.
Proof.
  intros H. unfold workers_sum.
  induction n as [|n IH]; cbn [repeat fold_right]; lia.
Qed.

Lemma workers_sum_done (g : worker -> Z) (ws : list worker) :
  g WkDone = 0 -> forallb is_done ws = true -> workers_sum g ws = 0.
Proof.
  intros Hg. unfold workers_sum.
  induction ws as [|w ws IH]; cbn [forallb fold_right]; [reflexivity |].
  intros H. apply andb_true_iff in H. destruct H as [Hw Hws].
  rewrite (IH Hws). destruct w; cbn in Hw; try discriminate. lia.
Qed.

Ltac tally_goal :=
  unfold tally; unfold_state;
  rewrite ?sum_w_app, ?sum_w_cons, ?sum_w_nil;
  try match goal with
      | E : nth_error (workers _) ?i = Some ?w |- _ =>
          rewrite ?(workers_sum_set_nth _ i w _ _ E)
      end;
  cbn [owes owes_bytes owes_skip].

Lemma weights_ok (Lstat : string -> stat_result) p info :
  Lstat p = StatOk info ->
  file_w Lstat p = (if IsDir info then 0 else 1) /\
  dir_w Lstat p = (if IsDir info then 1 else 0) /\
  err_w Lstat p = 0 /\
  bytes_w Lstat p = (if IsDir info then 0 else Size info) /\
  skip_w Lstat p = (if ShouldSkipPath p then 1 else 0).
Proof.
  intros E. unfold file_w, dir_w, err_w, bytes_w, skip_w. rewrite E. auto.
Qed.

Lemma weights_err (Lstat : string -> stat_result) p detail :
  Lstat p = StatErr detail ->
  file_w Lstat p = 0 /\ dir_w Lstat p = 0 /\ err_w Lstat p = 1 /\
  bytes_w Lstat p = 0 /\ skip_w Lstat p = 0.
Proof.
  intros E. unfold file_w, dir_w, err_w, bytes_w, skip_w. rewrite E. auto.
Qed.

Lemma weights_nonneg (Lstat : string -> stat_result) p :
  0 <= file_w Lstat p /\ 0 <= dir_w Lstat p /\ 0 <= err_w Lstat p /\
  0 <= skip_w Lstat p.
Proof.
  unfold file_w, dir_w, err_w, skip_w.
  destruct (Lstat p) as [info |]; [destruct (IsDir info) |];
    destruct (ShouldSkipPath p); lia.
Qed.

(** Rewrites the weights of the path a worker has just called [os.Lstat]
    on. *)
Ltac use_weights :=
  try match goal with
      | E : _ ?p = StatOk ?i |- _ =>
          destruct (weights_ok _ p i E) as [Wf [Wd [We [Wb Ws]]]];
          rewrite ?Wf, ?Wd, ?We, ?Wb, ?Ws
      | E : _ ?p = StatErr ?e |- _ =>
          destruct (weights_err _ p e E) as [Wf [Wd [We [Wb Ws]]]];
          rewrite ?Wf, ?Wd, ?We, ?Wb, ?Ws
      end;
  repeat match goal with
         | E : IsDir ?i = _ |- _ => rewrite ?E; clear E
         end.

Lemma step_tally_inv (Lstat : string -> stat_result) a d st st' :
  step Lstat a d st = Some st' ->
  tally_inv Lstat st -> tally_inv Lstat st'.
Proof.
  intros H [Hf Hd Hb Hs Nf Nd Ne Ns].
  unfold tally in *.
  step_cases H.
  all: use_state_equations.
  all: constructor; tally_goal.
  all: unfold Stop;
    repeat match goal with
           | |- context [if ctx_done ?s then _ else _] =>
               destruct (ctx_done s)
           end; unfold_state.
  all: rewrite ?sum_w_app, ?sum_w_cons, ?sum_w_nil in *.
  all: use_weights.
  all: try match goal with
       | |- context [ShouldSkipPath ?p] => destruct (ShouldSkipPath p) eqn:?
       end; unfold_state.
  all: rewrite ?Hf, ?Hd, ?Hb, ?Hs, ?add_wrap.
  all: try (f_equal; lia).
  all: try lia.
Qed.

Lemma frame_calls_join_kids (p : string) (kids : list (string * tree)) :
  (fix calls_kids (l : list (string * tree))
     : list (string * option string) :=
     match l with
     | [] => []
     | (name, k) :: l' => (calls (Join p name) k ++ calls_kids l')%list
     end) kids
  = frame_calls (join_kids p kids).
Proof.
  induction kids as [|[name k] kids IH]; [reflexivity |].
  cbn. now rewrite IH.
Qed.

Lemma calls_visit_of (p : string) (t : tree) :
  calls p t = call_of (visit_of p t) :: kids_calls (visit_of p t).
Proof.
  destruct t as [e | | [e|] kids]; try reflexivity.
  unfold kids_calls, call_of. cbn [calls visit_of v_path v_kind v_err v_kids].
  now rewrite frame_calls_join_kids.
Qed.

Lemma oks_app (l1 l2 : list (string * option string)) :
  oks (l1 ++ l2) = (oks l1 ++ oks l2)%list.
Proof.
  induction l1 as [|[p [e|]] l1 IH]; cbn; [reflexivity | exact IH |].
  now rewrite IH.
Qed.

Lemma errs_app (l1 l2 : list (string * option string)) :
  errs (l1 ++ l2) = errs l1 + errs l2.
Proof.
  induction l1 as [|[p [e|]] l1 IH]; cbn [app errs]; lia.
Qed.

Lemma errs_nonneg (l : list (string * option string)) : 0 <= errs l.
Proof. induction l as [|[p [e|]] l IH]; cbn [errs]; lia. Qed.

Lemma is_prefix_refl {A : Type} (l : list A) : is_prefix l l.
Proof. exists []. now rewrite app_nil_r. Qed.

Lemma is_prefix_app_l {A : Type} (l1 l2 l : list A) :
  is_prefix (l1 ++ l2) l -> is_prefix l1 l.
Proof. intros [r ->]. exists (l2 ++ r)%list. now rewrite app_assoc. Qed.

Lemma frames_calls_cons f frs :
  frames_calls (f :: frs) = (frame_calls f ++ frames_calls frs)%list.
Proof. reflexivity. Qed.

Lemma frame_calls_cons p t f :
  frame_calls ((p, t) :: f) = (calls p t ++ frame_calls f)%list.
Proof. reflexivity. Qed.

Lemma step_walk_tally_inv (Lstat : string -> stat_result)
    (rootPath : string) (t : tree) a d st st' :
  step Lstat a d st = Some st' ->
  walk_tally_inv Lstat rootPath t st -> walk_tally_inv Lstat rootPath t st'.
Proof.
  intros H [pre [post [Hc [Hp [He [Hn Hu]]]]]].
  unfold tally in *.
  step_cases H.
  all: use_state_equations.
  all: unfold walk_tally_inv; tally_goal.
  all: unfold Stop;
    repeat match goal with
           | |- context [if ctx_done ?s then _ else _] =>
               destruct (ctx_done s) eqn:?
           end; unfold_state.
  all: cbn [maysend maycount walker_todo] in *.
  all: rewrite ?sum_w_app, ?sum_w_cons, ?sum_w_nil in *.
  all: use_weights.
  all: lazymatch goal with
       | |- context [errs _ - match v_err ?v with _ => _ end] =>
           (* the first select let the walker through *)
           destruct (Hu ltac:(first [assumption | reflexivity]))
             as [Hpost Hoks];
           exists (pre ++ [call_of v])%list,
                  (kids_calls v ++ frames_calls (frames st))%list;
           unfold call_of; rewrite oks_app, errs_app, Hoks;
           destruct (v_err v) eqn:Ev; cbn [oks errs];
           rewrite ?app_nil_r, <- ?app_assoc;
           (refine (conj _ (conj _ (conj _ (conj _ _))));
            [ rewrite Hc, Hpost; cbn [app]; unfold call_of;
              rewrite Ev; reflexivity
            | apply is_prefix_refl
            | rewrite He; f_equal; lia
            | lia
            | intros _; split; reflexivity ])
       | |- _ =>
           repeat match goal with
                  | E : v_err _ = _ |- _ => rewrite E in *
                  end;
           exists pre, post;
           (refine (conj Hc (conj _ (conj _ (conj _ _))));
           [ try solve [rewrite ?app_nil_r, <- ?app_assoc in *; cbn [app] in *;
             first [ exact Hp
                   | eapply is_prefix_app_l; exact Hp ]]
           | try solve [rewrite ?He, ?add_wrap; f_equal; lia]
           | try lia
           | let Hx := fresh in
             intros Hx;
             try first
               [ congruence
               | exact (Hu Hx)
               | destruct (Hu ltac:(first [assumption | reflexivity]))
                   as [Hpost Hoks];
                 rewrite Hpost, Hoks;
                 rewrite ?frames_calls_cons, ?frame_calls_cons,
                   ?calls_visit_of;
                 unfold kids_calls;
                 repeat match goal with
                        | |- context [match ?x with _ => _ end] => destruct x
                        end;
                 rewrite ?frames_calls_cons;
                 cbn [app frame_calls frames_calls flat_map];
                 rewrite ?app_nil_r, <- ?app_assoc; cbn [app];
                 split; reflexivity ] ])
       end.
Qed.

Lemma Start_state_tally (Lstat : string -> stat_result) (rootPath : string)
    (t : tree) (now gomaxprocs : Z) :
  tally_inv Lstat (Start_state (NewScanner now gomaxprocs) rootPath t) /\
  walk_tally_inv Lstat rootPath t
    (Start_state (NewScanner now gomaxprocs) rootPath t).
Proof.
  split.
  - constructor; unfold tally; cbn [sc chan sent workers Start_state
      NewScanner fileCount dirCount bytesScanned skippedCount];
      rewrite ?sum_w_nil, workers_sum_repeat; reflexivity.
  - exists [], (calls rootPath t).
    unfold tally; cbn [sc chan sent workers wpc frames Start_state
      NewScanner errorCount ctx_done maysend maycount walker_todo errs oks].
    rewrite ?sum_w_nil, workers_sum_repeat by reflexivity.
    refine (conj eq_refl (conj (is_prefix_refl _) (conj eq_refl (conj _ _)))).
    + lia.
    + intros _. split; [| reflexivity].
      cbn. now rewrite !app_nil_r.
Qed.

(** Both records hold all along a scan, stopped or not. *)
Lemma run_tally (Lstat : string -> stat_result) (rootPath : string)
    (t : tree) (now gomaxprocs : Z) sched st :
  run Lstat sched (Start_state (NewScanner now gomaxprocs) rootPath t)
  = Some st ->
  tally_inv Lstat st /\ walk_tally_inv Lstat rootPath t st.
Proof.
  intros Hrun.
  apply (run_invariant Lstat
           (fun x => tally_inv Lstat x /\ walk_tally_inv Lstat rootPath t x))
    with (2 := Hrun).
  - intros a d s1 s2 Hs [H1 H2]. split.
    + eapply step_tally_inv; eassumption.
    + eapply step_walk_tally_inv; eassumption.
  - apply Start_state_tally.
Qed.

Lemma sum_w_nonneg (f : string -> Z) (l : list string) :
  (forall p, 0 <= f p) -> 0 <= sum_w f l.
Proof.
  intros Hf. unfold sum_w.
  induction l as [|p l IH]; cbn [fold_right]; [lia |].
  specialize (Hf p). lia.
Qed.

Lemma sum_w_le_length (f : string -> Z) (l : list string) :
  (forall p, f p <= 1) -> sum_w f l <= Z.of_nat (List.length l).
Proof.
  intros Hf. unfold sum_w.
  induction l as [|p l IH]; cbn [fold_right List.length]; [lia |].
  specialize (Hf p). lia.
Qed.

Lemma workers_sum_nonneg (g : worker -> Z) (ws : list worker) :
  (forall w, 0 <= g w) -> 0 <= workers_sum g ws.
Proof.
  intros Hg. unfold workers_sum.
  induction ws as [|w ws IH]; cbn [fold_right]; [lia |].
  specialize (Hg w). lia.
Qed.

Lemma errs_oks_length (l : list (string * option string)) :
  errs l + Z.of_nat (List.length (oks l)) = Z.of_nat (List.length l).
Proof.
  induction l as [|[p [e|]] l IH]; cbn [errs oks List.length]; lia.
Qed.

Lemma calls_reach : forall (t : tree) (p : string),
  map fst (calls p t) = reach p t.
Proof.
  fix IH 1.
  intros [e | | [e|] kids] p; try reflexivity.
  cbn [calls reach map fst]. f_equal.
  induction kids as [|[n k] kids IHk]; [reflexivity |].
  rewrite map_app, IH, IHk. reflexivity.
Qed.

Lemma calls_length (p : string) (t : tree) :
  List.length (calls p t) = List.length (reach p t).
Proof. now rewrite <- calls_reach, length_map. Qed.

Lemma sum_w_prefix (f : string -> Z) (l1 l2 : list string) :
  (forall p, 0 <= f p) -> is_prefix l1 l2 -> sum_w f l1 <= sum_w f l2.
Proof.
  intros Hf [r ->]. rewrite sum_w_app.
  pose proof (sum_w_nonneg f r Hf). lia.
Qed.

Lemma owes_nonneg (f : string -> Z) :
  (forall p, 0 <= f p) -> forall w, 0 <= owes f w.
Proof. intros Hf w. destruct w; cbn [owes]; first [apply Hf | lia]. Qed.


Lemma weights_le_1 (Lstat : string -> stat_result) p :
  file_w Lstat p <= 1 /\ dir_w Lstat p <= 1 /\ err_w Lstat p <= 1 /\
  skip_w Lstat p <= 1.
Proof.
  unfold file_w, dir_w, err_w, skip_w.
  destruct (Lstat p) as [info |]; [destruct (IsDir info) |];
    destruct (ShouldSkipPath p); lia.
Qed.

(** The state in which [wg.Wait()] returns from a scan nobody stopped:
    every invocation made, every error-free path sent, nothing queued or
    owed. *)
Lemma waited_tally (Lstat : string -> stat_result) (rootPath : string)
    (t : tree) (now gomaxprocs : Z) sched st :
  1 <= gomaxprocs < 2 ^ 62 ->
  run Lstat sched (Start_state (NewScanner now gomaxprocs) rootPath t)
  = Some st ->
  ctx_done (sc st) = false ->
  waited st = true ->
  sent st = oks (calls rootPath t) /\
  (forall f g, g WkDone = 0 -> tally f g st = sum_w f (oks (calls rootPath t))) /\
  errorCount (sc st)
  = Int64.wrap (errs (calls rootPath t)
                + sum_w (err_w Lstat) (oks (calls rootPath t))).
Proof.
  intros Hp Hrun Hnd Hwait.
  destruct (waited_uncancelled Lstat rootPath t now gomaxprocs sched st
              Hp Hrun Hnd Hwait) as [Hc [Hq [Hf _]]].
  destruct (run_tally Lstat rootPath t now gomaxprocs sched st Hrun)
    as [_ [pre [post [Hcalls [_ [He [_ Hu]]]]]]].
  destruct (Hu Hnd) as [Hpost Hoks].
  rewrite Hc, Hf in Hpost. cbn in Hpost. subst post.
  rewrite app_nil_r in Hcalls. subst pre.
  rewrite Hc in Hoks, He. cbn [maysend maycount] in Hoks, He.
  rewrite app_nil_r in Hoks.
  assert (Ht : forall f g, g WkDone = 0 ->
                 tally f g st = sum_w f (oks (calls rootPath t))).
  { intros f g Hg. unfold tally.
    rewrite Hq, sum_w_nil, (workers_sum_done g _ Hg Hwait), <- Hoks. lia. }
  split; [now symmetry |]. split; [exact Ht |].
  rewrite He, (Ht _ _ eq_refl). f_equal. lia.
Qed.

Lemma run_temp_dir :
  run Lstat_temp walk_temp (Start_state (NewScanner 0 1) temp_root temp_tree)
  = Some temp_scanned.
Proof. vm_compute. reflexivity. Qed.




(** The five counters when [wg.Wait()] returns from a scan nobody
    stopped. *)
Lemma waited_counters (Lstat : string -> stat_result) (rootPath : string)
    (t : tree) (now gomaxprocs : Z) sched st :
  1 <= gomaxprocs < 2 ^ 62 ->
  run Lstat sched (Start_state (NewScanner now gomaxprocs) rootPath t)
  = Some st ->
  ctx_done (sc st) = false ->
  waited st = true ->
  fileCount (sc st)
  = Int64.wrap (sum_w (file_w Lstat) (oks (calls rootPath t))) /\
  dirCount (sc st)
  = Int64.wrap (sum_w (dir_w Lstat) (oks (calls rootPath t))) /\
  errorCount (sc st)
  = Int64.wrap (errs (calls rootPath t)
                + sum_w (err_w Lstat) (oks (calls rootPath t))) /\
  bytesScanned (sc st)
  = Int64.wrap (sum_w (bytes_w Lstat) (oks (calls rootPath t))) /\
  skippedCount (sc st)
  = Int64.wrap (sum_w (skip_w Lstat) (oks (calls rootPath t))).
Proof.
  intros Hp Hrun Hnd Hwait.
  destruct (waited_tally Lstat rootPath t now gomaxprocs sched st
              Hp Hrun Hnd Hwait) as [_ [Ht He]].
  destruct (run_tally Lstat rootPath t now gomaxprocs sched st Hrun)
    as [[Hf Hd Hb Hs _ _ _ _] _].
  rewrite (Ht (file_w Lstat) (owes (file_w Lstat)) eq_refl) in Hf.
  rewrite (Ht (dir_w Lstat) (owes (dir_w Lstat)) eq_refl) in Hd.
  rewrite (Ht (bytes_w Lstat) (owes_bytes Lstat) eq_refl) in Hb.
  rewrite (Ht (skip_w Lstat) (owes_skip Lstat) eq_refl) in Hs.
  auto.
Qed.

(** The sums of the weights lie between 0 and the number of
    invocations. *)
Lemma sums_in_range (Lstat : string -> stat_result)
    (l : list (string * option string)) :
  Z.of_nat (List.length l) <= Int64.max_int ->
  Int64.in_range (sum_w (file_w Lstat) (oks l)) /\
  Int64.in_range (sum_w (dir_w Lstat) (oks l)) /\
  Int64.in_range (errs l + sum_w (err_w Lstat) (oks l)) /\
  Int64.in_range (sum_w (skip_w Lstat) (oks l)).
Proof.
  intros Hsmall.
  pose proof (errs_oks_length l) as Hlen.
  pose proof (errs_nonneg l) as Hen.
  pose proof min_int_neg as Hmin.
  pose proof (sum_w_nonneg (file_w Lstat) (oks l)
                (fun p => proj1 (weights_nonneg Lstat p))) as F0.
  pose proof (sum_w_nonneg (dir_w Lstat) (oks l)
                (fun p => proj1 (proj2 (weights_nonneg Lstat p)))) as D0.
  pose proof (sum_w_nonneg (err_w Lstat) (oks l)
                (fun p => proj1 (proj2 (proj2 (weights_nonneg Lstat p)))))
    as E0.
  pose proof (sum_w_nonneg (skip_w Lstat) (oks l)
                (fun p => proj2 (proj2 (proj2 (weights_nonneg Lstat p)))))
    as S0.
  pose proof (sum_w_le_length (file_w Lstat) (oks l)
                (fun p => proj1 (weights_le_1 Lstat p))) as F1.
  pose proof (sum_w_le_length (dir_w Lstat) (oks l)
                (fun p => proj1 (proj2 (weights_le_1 Lstat p)))) as D1.
  pose proof (sum_w_le_length (err_w Lstat) (oks l)
                (fun p => proj1 (proj2 (proj2 (weights_le_1 Lstat p)))))
    as E1.
  pose proof (sum_w_le_length (skip_w Lstat) (oks l)
                (fun p => proj2 (proj2 (proj2 (weights_le_1 Lstat p)))))
    as S1.
  unfold Int64.in_range. lia.
Qed.



(** X2. The file, directory and error totals of a completed scan that
    nobody stopped depend on the tree and on what [os.Lstat] answers, not
    on the schedule: files and directories are the error-free entries
    that [os.Lstat] finds to be one or the other, errors are the entries
    the walk could not visit plus those [os.Lstat] fails on; each is
    exact when the number of entries fits an int64. *)
Theorem scan_totals_from_tree
    (Lstat : string -> stat_result) (now gomaxprocs : Z)
    (rootPath : string) (t : tree) (sched : list (actor * bool)) (st : sys)
    (t_end : Z) (r : ScanResult)
    (Hprocs : 1 <= gomaxprocs < 2 ^ 62)
    (Hrun : run Lstat sched
              (Start_state (NewScanner now gomaxprocs) rootPath t)
            = Some st)
    (Huncancelled : ctx_done (sc st) = false)
    (Hres : Start_result st t_end = Some r) :
  let sent_all := oks (calls rootPath t) in
  TotalFiles r = Int64.wrap (sum_w (file_w Lstat) sent_all) /\
  TotalDirs r = Int64.wrap (sum_w (dir_w Lstat) sent_all) /\
  TotalErrors r
  = Int64.wrap (errs (calls rootPath t) + sum_w (err_w Lstat) sent_all) /\
  (Z.of_nat (List.length (calls rootPath t)) <= Int64.max_int ->
   TotalFiles r = sum_w (file_w Lstat) sent_all /\
   TotalDirs r = sum_w (dir_w Lstat) sent_all /\
   TotalErrors r = errs (calls rootPath t) + sum_w (err_w Lstat) sent_all).
Proof.
  cbv zeta.
  unfold Start_result in Hres.
  destruct (waited st) eqn:Hwait; [| discriminate].
  injection Hres as <-. cbn [TotalFiles TotalDirs TotalErrors Start_return].
  destruct (waited_counters Lstat rootPath t now gomaxprocs sched st
              Hprocs Hrun Huncancelled Hwait) as [Hf [Hd [He _]]].
  split; [exact Hf |]. split; [exact Hd |]. split; [exact He |].
  intros Hsmall.
  destruct (sums_in_range Lstat _ Hsmall) as [Rf [Rd [Re _]]].
  rewrite Hf, Hd, He, !wrap_in_range by assumption. auto.
Qed.

Lemma scan_totals_from_tree_witness :
  exists r,
    Start_result temp_scanned 1 = Some r /\
    TotalFiles r = 5 /\ TotalDirs r = 3 /\ TotalErrors r = 0.
Proof.
  eexists. split; [reflexivity |].
  assert (Hp : 1 <= 1 < 2 ^ 62) by lia.
  pose proof (scan_totals_from_tree Lstat_temp 0 1 temp_root temp_tree
                walk_temp temp_scanned 1 _ Hp run_temp_dir eq_refl eq_refl)
    as H.
  cbv zeta in H. destruct H as [_ [_ [_ H]]].
  destruct H as [Hf [Hd He]]; [vm_compute; discriminate |].
  rewrite Hf, Hd, He. repeat split; vm_compute; reflexivity.
Defined.



Lemma is_prefix_oks (pre post : list (string * option string))
    (l : list string) :
  is_prefix l (oks pre) -> is_prefix l (oks (pre ++ post)).
Proof.
  intros [r Hr]. exists (r ++ oks post)%list.
  now rewrite oks_app, Hr, app_assoc.
Qed.



(** ** Scan Coordinator: Start returns once stopped *)

Lemma set_nth_set_nth {A : Type} (i : nat) (a b : A) (l : list A) :
  set_nth i a (set_nth i b l) = set_nth i a l.
Proof.
  revert i. induction l as [|c l IH]; intros [|i]; cbn; auto.
  now rewrite IH.
Qed.

Lemma set_nth_app {A : Type} (l1 l2 : list A) (a b : A) :
  set_nth (List.length l1) a (l1 ++ b :: l2) = (l1 ++ a :: l2)%list.
Proof. induction l1 as [|c l1 IH]; cbn; [reflexivity | now rewrite IH]. Qed.

Lemma nth_error_app_here {A : Type} (l1 l2 : list A) (b : A) :
  nth_error (l1 ++ b :: l2) (List.length l1) = Some b.
Proof. induction l1 as [|c l1 IH]; cbn; auto. Qed.

(** With the signal raised, a worker that has not returned can move
    without touching the channel, and gets nearer to its return. *)
Lemma worker_winds_down (Lstat : string -> stat_result) (st : sys) (i : nat)
    (w : worker) :
  ctx_done (sc st) = true ->
  nth_error (workers st) i = Some w ->
  is_done w = false ->
  exists st' w',
    step Lstat (Worker i) true st = Some st' /\
    workers st' = set_nth i w' (workers st) /\
    (worker_cost w' < worker_cost w)%nat /\
    ctx_done (sc st') = true /\
    wpc st' = wpc st /\ frames st' = frames st /\
    sent st' = sent st /\ chan st' = chan st.
Proof.
  intros Hd Hn Hw. unfold step, worker_step. rewrite Hn.
  destruct w; try discriminate.
  - rewrite Hd. unfold select2.
    exists (set_worker i WkDone st), WkDone.
    destruct (match chan st with [] => chan_closed st | _ :: _ => true end);
      cbn; auto 10.
  - destruct (Lstat path) as [info | err].
    + destruct (IsDir info); eexists; eexists;
        (split; [reflexivity |]); cbn; auto 10.
    + eexists; eexists; (split; [reflexivity |]); cbn; auto 10.
  - eexists; eexists; (split; [reflexivity |]); cbn; auto 10.
  - exists (set_worker i WkSelect
              (if ShouldSkipPath path
               then set_sc (add_skippedCount (sc st) 1) st else st)),
           WkSelect.
    destruct (ShouldSkipPath path); cbn; auto 10.
  - eexists; eexists; (split; [reflexivity |]); cbn; auto 10.
Qed.

Lemma worker_returns (Lstat : string -> stat_result) (n : nat) :
  forall (st : sys) (i : nat) (w : worker),
    (worker_cost w <= n)%nat ->
    ctx_done (sc st) = true ->
    nth_error (workers st) i = Some w ->
    exists k st',
      (k <= n)%nat /\
      run Lstat (repeat (Worker i, true) k) st = Some st' /\
      workers st' = set_nth i WkDone (workers st) /\
      ctx_done (sc st') = true /\
      wpc st' = wpc st /\ frames st' = frames st /\
      sent st' = sent st /\ chan st' = chan st.
Proof.
  induction n as [|n IH]; intros st i w Hc Hd Hn.
  - destruct w; cbn in Hc; try lia.
    exists 0%nat, st. cbn. repeat split; auto.
    clear - Hn. revert i Hn.
    induction (workers st) as [|b l IHl]; intros [|i] H; cbn in *;
      try discriminate; [now injection H as -> | now rewrite <- IHl].
  - destruct (is_done w) eqn:Hw.
    + destruct w; try discriminate.
      exists 0%nat, st. cbn. repeat split; auto; try lia.
      clear - Hn. revert i Hn.
      induction (workers st) as [|b l IHl]; intros [|i] H; cbn in *;
        try discriminate; [now injection H as -> | now rewrite <- IHl].
    + destruct (worker_winds_down Lstat st i w Hd Hn Hw)
        as [st1 [w1 [Hs [Hws [Hlt [Hd1 [Hp [Hf [Hse Hch]]]]]]]]].
      assert (Hn1 : nth_error (workers st1) i = Some w1).
      { rewrite Hws. eapply nth_error_set_nth. exact Hn. }
      destruct (IH st1 i w1 ltac:(lia) Hd1 Hn1)
        as [k [st' [Hk [Hr [Hws' [Hd' [Hp' [Hf' [Hse' Hch']]]]]]]]].
      exists (S k), st'. cbn [repeat run]. rewrite Hs.
      repeat split; try congruence; try lia.
      rewrite Hws', Hws. apply set_nth_set_nth.
Qed.

Lemma workers_return (Lstat : string -> stat_result) :
  forall (rest pre : list worker) (st : sys),
    ctx_done (sc st) = true ->
    workers st = (pre ++ rest)%list ->
    exists sched st',
      Forall (fun c => exists i, fst c = Worker i) sched /\
      (List.length sched <= 4 * List.length rest)%nat /\
      run Lstat sched st = Some st' /\
      workers st' = (pre ++ repeat WkDone (List.length rest))%list /\
      ctx_done (sc st') = true /\
      wpc st' = wpc st /\ frames st' = frames st /\
      sent st' = sent st /\ chan st' = chan st.
Proof.
  induction rest as [|w rest IH]; intros pre st Hd Hws.
  - exists [], st. cbn. repeat split; auto.
  - assert (Hn : nth_error (workers st) (List.length pre) = Some w)
      by (rewrite Hws; apply nth_error_app_here).
    assert (Hc : (worker_cost w <= 4)%nat) by (destruct w; cbn; lia).
    destruct (worker_returns Lstat 4 st (List.length pre) w Hc Hd Hn)
      as [k [st1 [Hk [Hr [Hws1 [Hd1 [Hp [Hf [Hse Hch]]]]]]]]].
    rewrite Hws, set_nth_app in Hws1.
    assert (Hws1' : workers st1 = ((pre ++ [WkDone]) ++ rest)%list)
      by (rewrite Hws1, <- app_assoc; reflexivity).
    destruct (IH (pre ++ [WkDone])%list st1 Hd1 Hws1')
      as [sched [st' [Hfa [Hl [Hr' [Hws' [Hd' [Hp' [Hf' [Hse' Hch']]]]]]]]]].
    exists (repeat (Worker (List.length pre), true) k ++ sched)%list, st'.
    split.
    { apply Forall_app. split; [| exact Hfa].
      apply Forall_forall. intros c Hin. apply repeat_spec in Hin. subst c.
      now exists (List.length pre). }
    split.
    { rewrite length_app, repeat_length. cbn [List.length]. lia. }
    split; [rewrite run_app, Hr; exact Hr' |].
    split.
    { rewrite Hws', <- app_assoc. reflexivity. }
    repeat split; congruence.
Qed.

Lemma forallb_done_repeat (n : nat) :
  forallb is_done (repeat WkDone n) = true.
Proof. induction n; cbn; auto. Qed.

(** X5. Once [Stop] has been called, the workers can all return within
    four moves each, whatever is left of the walk and of the channel:
    [wg.Wait()] returns and [Start] has its result while the walker is
    where it was and the queued paths stay unprocessed. *)
Theorem Start_returns_after_Stop
    (Lstat : string -> stat_result) (st : sys)
    (Hstopped : ctx_done (sc st) = true) :
  exists sched st',
    Forall (fun c => exists i, fst c = Worker i) sched /\
    (List.length sched <= 4 * List.length (workers st))%nat /\
    run Lstat sched st = Some st' /\
    waited st' = true /\
    (forall now, Start_result st' now = Some (Start_return (sc st') now)) /\
    wpc st' = wpc st /\ frames st' = frames st /\
    sent st' = sent st /\ chan st' = chan st.
Proof.
  destruct (workers_return Lstat (workers st) [] st Hstopped eq_refl)
    as [sched [st' [Hfa [Hl [Hr [Hws [Hd [Hp [Hf [Hse Hch]]]]]]]]]].
  exists sched, st'.
  assert (Hw : waited st' = true).
  { unfold waited. rewrite Hws. apply forallb_done_repeat. }
  repeat split; auto.
  intros now. unfold Start_result. now rewrite Hw.
Qed.

Lemma Start_returns_after_Stop_witness :
  exists sched st',
    (List.length sched <= 8)%nat /\
    run Lstat_two_dirs sched two_dirs_stopped = Some st' /\
    waited st' = true /\
    chan st' = ["/r"; "/r/d1"].
Proof.
  destruct (Start_returns_after_Stop Lstat_two_dirs two_dirs_stopped eq_refl)
    as [sched [st' [_ [Hl [Hr [Hw [_ [_ [_ [_ Hc]]]]]]]]]].
  exists sched, st'. auto.
Defined.

(** ** The channel, and a scanner stopped before it starts *)

Lemma step_chan_inv (Lstat : string -> stat_result) a d st st' :
  step Lstat a d st = Some st' -> chan_inv st -> chan_inv st'.
Proof.
  intros H Hi. unfold chan_inv in *.
  step_cases H.
  all: use_state_equations.
  all: destruct Hi as [Hl [[got Hg] Hp]].
  all: unfold_state.
  all: unfold Stop;
    repeat match goal with
           | |- context [if ?b then _ else _] => destruct b eqn:?
           end; unfold_state.
  all: rewrite ?set_nth_length.
  all: (split; [| split; [| exact Hp]]).
  all: try exact Hl.
  all: try (exists got; exact Hg).
  all: try (exists got; rewrite Hg; symmetry; apply app_assoc).
  all: try (rewrite length_app; cbn [List.length];
            match goal with
            | E : Nat.ltb _ _ = true |- _ => apply Nat.ltb_lt in E; lia
            end).
  all: try (cbn [List.length] in Hl; lia).
  all: match type of Hg with
       | _ = (_ ++ ?p :: _)%list =>
           exists (got ++ [p])%list; rewrite Hg, <- app_assoc; reflexivity
       end.
Qed.

(** X6. All along a scan the channel never holds more than 1000 paths,
    what it holds is the tail of what the walker has sent (paths are
    received in the order sent, none twice), and the pool keeps the
    [workerCount] workers it started with. *)
Theorem channel_bounded_and_in_order
    (Lstat : string -> stat_result) (now gomaxprocs : Z)
    (rootPath : string) (t : tree) (sched : list (actor * bool)) (st : sys)
    (Hrun : run Lstat sched
              (Start_state (NewScanner now gomaxprocs) rootPath t)
            = Some st) :
  (List.length (chan st) <= 1000)%nat /\
  (exists got, sent st = (got ++ chan st)%list) /\
  List.length (workers st)
  = Z.to_nat (workerCount (NewScanner now gomaxprocs)).
Proof.
  assert (Hi : chan_inv st).
  { apply (run_invariant Lstat chan_inv (step_chan_inv Lstat)) with (1 := Hrun).
    unfold chan_inv. cbn [chan sent workers sc Start_state List.length].
    split; [unfold chan_cap; lia |].
    split; [now exists [] |]. apply repeat_length. }
  destruct Hi as [Hl [Hg Hp]].
  split; [exact Hl |]. split; [exact Hg |].
  rewrite Hp. f_equal.
  apply (run_invariant Lstat
           (fun x => workerCount (sc x)
                     = workerCount (NewScanner now gomaxprocs)))
    with (2 := Hrun); [| reflexivity].
  intros a d s1 s2 Hs HP.
  destruct (step_scanner_constants Lstat a d s1 s2 Hs) as [_ [E _]].
  congruence.
Qed.

Lemma channel_bounded_and_in_order_witness :
  (List.length (chan two_dirs_stopped) <= 1000)%nat /\
  exists got, sent two_dirs_stopped = (got ++ chan two_dirs_stopped)%list.
Proof.
  assert (Hrun : run Lstat_two_dirs stop_at_first_file
                   (Start_state (NewScanner 0 1) "/r" two_dirs)
                 = Some two_dirs_stopped) by (vm_compute; reflexivity).
  pose proof (channel_bounded_and_in_order Lstat_two_dirs 0 1 "/r" two_dirs
                stop_at_first_file two_dirs_stopped Hrun) as [H1 [H2 _]].
  auto.
Defined.

Lemma worker_free_set_nth (i : nat) (w : worker) (ws : list worker) :
  worker_free w = true ->
  forallb worker_free ws = true ->
  forallb worker_free (set_nth i w ws) = true.
Proof.
  intros Hw. revert i.
  induction ws as [|b ws IH]; intros [|i] H; cbn in *; auto.
  - apply andb_true_iff in H. destruct H as [_ H]. now rewrite Hw, H.
  - apply andb_true_iff in H. destruct H as [Hb H]. now rewrite Hb, IH.
Qed.

Lemma worker_free_nth (i : nat) (w : worker) (ws : list worker) :
  forallb worker_free ws = true ->
  nth_error ws i = Some w -> worker_free w = true.
Proof.
  revert i. induction ws as [|b ws IH]; intros [|i] H Hn; cbn in *;
    try discriminate; apply andb_true_iff in H; destruct H as [Hb H].
  - now injection Hn as <-.
  - eapply IH; eassumption.
Qed.

Lemma step_untouched (Lstat : string -> stat_result) a d st st' :
  step Lstat a d st = Some st' -> untouched st -> untouched st'.
Proof.
  intros H Hu. unfold untouched in *.
  step_cases H.
  all: use_state_equations.
  all: destruct Hu as [Hd [Hi [Hs [Hc [Hw Hz]]]]].
  all: unfold_state.
  all: try discriminate.
  all: try congruence.
  all: try match goal with
       | E : nth_error (workers _) _ = Some ?w |- _ =>
           pose proof (worker_free_nth _ _ _ Hw E) as Hfree;
           cbn in Hfree; try discriminate Hfree
       end.
  all: unfold Stop; rewrite ?Hd; unfold_state.
  all: repeat split; try tauto; try reflexivity.
  all: try (apply worker_free_set_nth; [reflexivity | assumption]).
Qed.

(** X7. A scan on a scanner that was stopped before [Start] sends and
    counts nothing: whatever the schedule, every total of the result is
    zero and no error message or current path is recorded. *)
Theorem stopped_scanner_reports_nothing
    (Lstat : string -> stat_result) (now gomaxprocs : Z)
    (rootPath : string) (t : tree) (sched : list (actor * bool)) (st : sys)
    (t_end : Z) (r : ScanResult)
    (Hrun : run Lstat sched
              (Start_state (Stop (NewScanner now gomaxprocs)) rootPath t)
            = Some st)
    (Hres : Start_result st t_end = Some r) :
  TotalFiles r = 0 /\ TotalDirs r = 0 /\ TotalErrors r = 0 /\
  TotalSkipped r = 0 /\ TotalBytes r = 0 /\
  sent st = [] /\ lastError (sc st) = "" /\ currentPath (sc st) = "".
Proof.
  assert (Hu : untouched st).
  { apply (run_invariant Lstat untouched (step_untouched Lstat))
      with (1 := Hrun).
    unfold untouched. cbn. repeat split; auto.
    induction (Z.to_nat (Int64.mul gomaxprocs 2)); cbn; auto. }
  unfold Start_result in Hres.
  destruct (waited st); [| discriminate].
  injection Hres as <-. cbn.
  unfold untouched in Hu. tauto.
Qed.

Lemma stopped_scanner_reports_nothing_witness :
  exists st r,
    run Lstat_two_dirs (turns Walker 4 ++ turns (Worker 0) 1
                        ++ turns (Worker 1) 1)%list
      (Start_state (Stop (NewScanner 0 1)) "/r" two_dirs) = Some st /\
    Start_result st 1 = Some r /\
    wpc st = WalkClosed /\
    TotalDirs r = 0.
Proof.
  eexists. eexists.
  split; [vm_compute; reflexivity |].
  split; [reflexivity |].
  split; [reflexivity |].
  match goal with
  | |- TotalDirs ?r = 0 =>
      exact (proj1 (proj2
               (stopped_scanner_reports_nothing Lstat_two_dirs 0 1 "/r"
                  two_dirs
                  (turns Walker 4 ++ turns (Worker 0) 1
                   ++ turns (Worker 1) 1)%list
                  _ 1 r ltac:(vm_compute; reflexivity) eq_refl)))
  end.
Defined.

(** ** Path Classifier and Path Processor, again *)



(** X9. [ShouldSkipPath] flags nothing else: not a path that does not
    start with a separator, not the root, and not a name that only begins
    like an entry of the list (an entry followed by anything but a
    separator, as in /system or /devel). *)
Theorem ShouldSkipPath_only_entries :
  (forall path, ShouldSkipPath path = true -> exists rest, path = "/" ++ rest) /\
  ShouldSkipPath "/" = false /\
  ShouldSkipPath "" = false /\
  (forall entry c rest,
     In entry skipPaths -> c <> "/"%char ->
     ShouldSkipPath (entry ++ String c rest) = false).
Proof.
  split; [| split; [reflexivity | split; [reflexivity |]]].
  - intros path H. apply skip_loop_iff in H.
    destruct H as [e [Hin Hm]].
    assert (He : exists r, e = "/" ++ r).
    { cbn in Hin.
      repeat (destruct Hin as [<- | Hin]; [eexists; reflexivity |]).
      destruct Hin. }
    destruct He as [r ->].
    destruct Hm as [-> | [rest ->]]; eexists; reflexivity.
  - intros entry c rest Hin Hc.
    assert (E : Ascii.eqb c "/" = false) by now apply Ascii.eqb_neq.
    cbn in Hin.
    repeat (destruct Hin as [<- | Hin];
            [unfold ShouldSkipPath; cbn; rewrite ?E; reflexivity |]).
    destruct Hin.
Qed.

(** X10. A worker that holds a path and is left to run does what
    [ProcessPath] does: in at most three moves the scanner is the one
    [ProcessPath] returns, the worker is back at its [select], and the
    channel, the walker and the record of what was sent are as they
    were. *)
Theorem worker_refines_ProcessPath
    (Lstat : string -> stat_result) (i : nat) (st : sys) (path : string)
    (Hheld : nth_error (workers st) i = Some (WkGot path)) :
  exists n st',
    (n <= 3)%nat /\
    run Lstat (turns (Worker i) n) st = Some st' /\
    sc st' = ProcessPath Lstat (sc st) path /\
    workers st' = set_nth i WkSelect (workers st) /\
    chan st' = chan st /\ wpc st' = wpc st /\ frames st' = frames st /\
    sent st' = sent st.
Proof.
  pose proof (fun w => nth_error_set_nth i w _ _ Hheld) as Hset.
  assert (Hset2 : forall w w',
             nth_error (set_nth i w' (set_nth i w (workers st))) i = Some w').
  { intros w w'. eapply nth_error_set_nth. apply Hset. }
  unfold ProcessPath.
  destruct (Lstat path) as [info | err] eqn:E.
  - destruct (IsDir info) eqn:D.
    + exists 2%nat. eexists. split; [lia |].
      unfold turns. cbn [repeat run].
      unfold step at 1, worker_step. rewrite Hheld, E, D.
      unfold step, worker_step. cbn [workers set_worker set_workers set_sc].
      rewrite Hset. split; [reflexivity |].
      destruct (ShouldSkipPath path); cbn; rewrite !set_nth_set_nth; auto 10.
    + exists 3%nat. eexists. split; [lia |].
      unfold turns. cbn [repeat run].
      unfold step at 1, worker_step. rewrite Hheld, E, D.
      unfold step at 1, worker_step.
      cbn [workers set_worker set_workers set_sc].
      rewrite Hset.
      unfold step, worker_step. cbn [workers set_worker set_workers set_sc].
      rewrite Hset2. split; [reflexivity |].
      destruct (ShouldSkipPath path); cbn; rewrite !set_nth_set_nth; auto 10.
  - exists 2%nat. eexists. split; [lia |].
    unfold turns. cbn [repeat run].
    unfold step at 1, worker_step. rewrite Hheld, E.
    unfold step, worker_step. cbn [workers set_worker set_workers set_sc].
    rewrite Hset. split; [reflexivity |].
    cbn. rewrite !set_nth_set_nth. auto 10.
Qed.

Lemma worker_refines_ProcessPath_witness :
  exists n st',
    run Lstat_hello (turns (Worker 0) n)
      (set_worker 0 (WkGot "/tmp/test-file")
         (Start_state (NewScanner 0 1) "/tmp/test-file" File)) = Some st' /\
    fileCount (sc st') = 1 /\ bytesScanned (sc st') = 13.
Proof.
  destruct (worker_refines_ProcessPath Lstat_hello 0
              (set_worker 0 (WkGot "/tmp/test-file")
                 (Start_state (NewScanner 0 1) "/tmp/test-file" File))
              "/tmp/test-file" eq_refl)
    as [n [st' [_ [Hr [Hs _]]]]].
  exists n, st'. split; [exact Hr |]. rewrite Hs. split; reflexivity.
Defined.

Lemma add_add_comm (x a b : Z) :
  atomic_AddInt64 (atomic_AddInt64 x a) b
  = atomic_AddInt64 (atomic_AddInt64 x b) a.
Proof.
  unfold atomic_AddInt64, Int64.add.
  rewrite !wrap_wrap_add. f_equal. lia.
Qed.

(** X11. The order in which two paths are processed does not matter to
    the counters: [ProcessPath] on one path and then on another leaves the
    five counters, the current path and the signal as the other order
    does; [lastError] too unless both paths fail, when it keeps the
    message of the later one. *)
Theorem ProcessPath_order_independent
    (Lstat : string -> stat_result) (s : Scanner) (p q : string) :
  let s1 := ProcessPath Lstat (ProcessPath Lstat s p) q in
  let s2 := ProcessPath Lstat (ProcessPath Lstat s q) p in
  fileCount s1 = fileCount s2 /\
  dirCount s1 = dirCount s2 /\
  errorCount s1 = errorCount s2 /\
  skippedCount s1 = skippedCount s2 /\
  bytesScanned s1 = bytesScanned s2 /\
  currentPath s1 = currentPath s2 /\
  ctx_done s1 = ctx_done s2 /\
  ((forall d, Lstat p <> StatErr d) \/ (forall d, Lstat q <> StatErr d) ->
   lastError s1 = lastError s2).
Proof.
  cbv zeta. unfold ProcessPath.
  destruct (Lstat p) as [ip | ep] eqn:Ep; destruct (Lstat q) as [iq | eq] eqn:Eq.
  all: repeat match goal with
              | |- context [IsDir ?i] => destruct (IsDir i)
              end.
  all: destruct (ShouldSkipPath p); destruct (ShouldSkipPath q).
  all: cbn.
  all: repeat split; try reflexivity; try apply add_add_comm.
  all: intros [H | H]; exfalso; eapply H; reflexivity.
Qed.

(** ** Progress Reporter *)

Lemma string_length_append (a b : string) :
  String.length (a ++ b) = (String.length a + String.length b)%nat.
Proof. induction a as [|c a IH]; simpl; [reflexivity | now rewrite IH]. Qed.

Lemma substring_length (s : string) :
  forall n m : nat,
    (n + m <= String.length s)%nat -> String.length (substring n m s) = m.
Proof.
  induction s as [|c s IH]; intros n m H; simpl in H.
  - assert (n = 0%nat) by lia. assert (m = 0%nat) by lia. subst. reflexivity.
  - destruct n as [|n]; simpl.
    + destruct m as [|m]; simpl; [reflexivity |].
      f_equal. apply IH. simpl. lia.
    + apply IH. lia.
Qed.

Lemma substring_all (s : string) : substring 0 (String.length s) s = s.
Proof. induction s as [|c s IH]; simpl; [reflexivity | now rewrite IH]. Qed.

(** A string is its first [n] bytes followed by the rest. *)
Lemma substring_split (s : string) :
  forall n : nat,
    (n <= String.length s)%nat ->
    s = substring 0 n s ++ substring n (String.length s - n) s.
Proof.
  induction s as [|c s IH]; intros n H; simpl in H.
  - assert (n = 0%nat) by lia. subst. reflexivity.
  - destruct n as [|n].
    + cbn [substring append]. change (String.length (String c s) - 0)%nat
        with (S (String.length s)).
      cbn [substring]. now rewrite substring_all.
    + cbn [substring String.length Nat.sub append]. f_equal. apply IH. lia.
Qed.

(** X12. What [displayProgress] shows of a path or of an error message
    is at most 80 bytes long: a string of up to 80 bytes is shown whole,
    a longer path as three dots and its last 77 bytes, a longer message
    as its first 77 bytes and three dots. *)
Theorem displayProgress_cuts_to_80_bytes (s : string) :
  (String.length (truncate_path s) <= 80)%nat /\
  (String.length (truncate_error s) <= 80)%nat /\
  ((String.length s <= 80)%nat ->
   truncate_path s = s /\ truncate_error s = s) /\
  ((80 < String.length s)%nat ->
   exists head tail front back,
     s = head ++ tail /\ String.length tail = 77%nat /\
     truncate_path s = "..." ++ tail /\
     s = front ++ back /\ String.length front = 77%nat /\
     truncate_error s = front ++ "...").
Proof.
  unfold truncate_path, truncate_error.
  destruct (Nat.ltb 80 (String.length s)) eqn:E.
  - apply Nat.ltb_lt in E.
    assert (L1 : String.length (substring (String.length s - 77) 77 s)
                 = 77%nat) by (apply substring_length; lia).
    assert (L2 : String.length (substring 0 77 s) = 77%nat)
      by (apply substring_length; lia).
    rewrite !string_length_append, L1, L2.
    change (String.length "...") with 3%nat.
    split; [lia |]. split; [lia |]. split; [lia |].
    intros _.
    exists (substring 0 (String.length s - 77) s),
      (substring (String.length s - 77) 77 s),
      (substring 0 77 s), (substring 77 (String.length s - 77) s).
    split.
    { pose proof (substring_split s (String.length s - 77) ltac:(lia)) as H.
      replace (String.length s - (String.length s - 77))%nat with 77%nat
        in H by lia.
      exact H. }
    split; [exact L1 |]. split; [reflexivity |].
    split; [apply substring_split; lia |].
    split; [exact L2 | reflexivity].
  - apply Nat.ltb_ge in E.
    split; [exact E |]. split; [exact E |]. split; [auto | lia].
Qed.

Lemma FormatBytes_returns (n : Z) :
  Int64.in_range n -> exists s, FormatBytes n = Returned s.
Proof.
  intros Hn.
  destruct (Z_lt_le_dec n 1024) as [Hs | Hl].
  - eexists. now apply FormatBytes_small.
  - destruct (digits_1024 n) as [k [Hk Hr]]; [split; [exact Hl | apply Hn] |].
    destruct (FormatBytes_large n k Hk Hr) as [c [_ HF]].
    eexists. exact HF.
Qed.

Lemma truncate_path_short (s : string) :
  Nat.ltb 80 (String.length s) = false -> truncate_path s = s.
Proof. unfold truncate_path. now intros ->. Qed.

Lemma truncate_error_short (s : string) :
  Nat.ltb 80 (String.length s) = false -> truncate_error s = s.
Proof. unfold truncate_error. now intros ->. Qed.

Lemma truncate_path_nonempty (s : string) :
  Nat.ltb 0 (String.length s) = true ->
  Nat.ltb 0 (String.length (truncate_path s)) = true.
Proof.
  unfold truncate_path. destruct (Nat.ltb 80 (String.length s)); auto.
Qed.

Lemma truncate_error_nonempty (s : string) :
  Nat.ltb 0 (String.length s) = true ->
  Nat.ltb 0 (String.length (truncate_error s)) = true.
Proof.
  unfold truncate_error. destruct (Nat.ltb 80 (String.length s)); auto.
  destruct s as [|c s]; [discriminate |]. reflexivity.
Qed.

(** The prints of one tick: the two of the status line, the lines below
    it, and the cursor sent up by one line for a current path and one for
    a last error, printed or not. *)
Lemma progress_prints_lines (files dirs errors skipped bytes elapsed : Z)
    (currentPath lastError size : string) :
  FormatBytes bytes = Returned size ->
  let below := lines_below errors currentPath lastError in
  let k := Z.of_nat (List.length below)
           + (if Nat.ltb 0 (String.length lastError) && (errors <=? 0)
              then 1 else 0) in
  progress_prints files dirs errors skipped bytes elapsed currentPath
    lastError
  = Returned ([clear_line;
               status_line files dirs errors skipped size elapsed]
              ++ below ++ (if k =? 0 then [] else [cursor_up k]))%list.
Proof.
  intros HF. unfold progress_prints, lines_below. rewrite HF.
  destruct (Nat.ltb 0 (String.length currentPath)) eqn:Ec;
    destruct (Nat.ltb 0 (String.length lastError)) eqn:El;
    destruct (0 <? errors) eqn:Ee;
    destruct (errors <=? 0) eqn:Ee';
    try (apply Z.ltb_lt in Ee; apply Z.leb_le in Ee'; lia);
    try (apply Z.ltb_ge in Ee; apply Z.leb_gt in Ee'; lia);
    cbn [andb orb];
    destruct (Nat.ltb 80 (String.length currentPath)) eqn:Lc;
    destruct (Nat.ltb 80 (String.length lastError)) eqn:Le;
    rewrite ?(truncate_path_short _ Lc), ?(truncate_error_short _ Le);
    rewrite ?(truncate_path_nonempty _ Ec), ?(truncate_error_nonempty _ El),
      ?Ec, ?El;
    cbn [andb orb]; reflexivity.
Qed.

(** X13. One tick of [displayProgress], on any loaded values with an
    int64 byte count: it prints the line eraser, the status line and at
    most two lines below it, then sends the cursor up.  When the last
    error is empty or an error has been counted, the cursor goes up by
    the number of lines printed below the status line, and not at all
    when there is none.  When a last error is there but the loaded count
    is not positive, the message is not printed and counted all the
    same: the cursor goes up one line more than was printed. *)
Theorem displayProgress_cursor_up
    (files dirs errors skipped bytes elapsed : Z)
    (currentPath lastError : string) (Hbytes : Int64.in_range bytes) :
  exists status up,
    let below := lines_below errors currentPath lastError in
    progress_prints files dirs errors skipped bytes elapsed currentPath
      lastError
    = Returned ([clear_line; status] ++ below ++ up)%list /\
    (List.length below <= 2)%nat /\
    (lastError = "" \/ 0 < errors ->
     up = if Nat.eqb (List.length below) 0 then []
          else [cursor_up (Z.of_nat (List.length below))]) /\
    (lastError <> "" /\ errors <= 0 ->
     up = [cursor_up (Z.of_nat (List.length below) + 1)]).
Proof.
  destruct (FormatBytes_returns bytes Hbytes) as [size HF].
  eexists. eexists. cbv zeta.
  split; [apply progress_prints_lines; exact HF |].
  assert (Hl : Nat.ltb 0 (String.length lastError) = false <-> lastError = "").
  { destruct lastError; cbn; split; congruence. }
  unfold lines_below.
  destruct (Nat.ltb 0 (String.length currentPath));
    destruct (Nat.ltb 0 (String.length lastError));
    destruct (Z.ltb_spec 0 errors); destruct (Z.leb_spec errors 0);
    try lia;
    cbn [andb orb app List.length Nat.eqb];
    (split; [lia |]); split; intros Hx; try reflexivity; exfalso.
  all: first
         [ destruct Hx as [Hx | Hx];
           [apply Hl in Hx; discriminate Hx | lia]
         | destruct Hx as [Hx He];
           first [lia | apply Hx; apply Hl; reflexivity] ].
Qed.

Lemma displayProgress_cursor_up_witness :
  Int64.in_range 2048 /\
  exists status up,
    progress_prints 1 2 0 3 2048 0 "/a/b" "boom"
    = Returned ([clear_line; status] ++ lines_below 0 "/a/b" "boom" ++ up)%list
    /\ lines_below 0 "/a/b" "boom" = [LF ++ "Current: /a/b"]
    /\ up = [cursor_up 2].
Proof.
  assert (H : Int64.in_range 2048)
    by (unfold Int64.in_range, Int64.min_int, Int64.max_int; lia).
  split; [exact H |].
  destruct (displayProgress_cursor_up 1 2 0 3 2048 0 "/a/b" "boom" H)
    as [status [up [H1 [_ [_ H3]]]]].
  exists status, up. split; [exact H1 |]. split; [reflexivity |].
  apply H3. split; [discriminate | lia].
Defined.

(** ** The time on the status line *)

Lemma fmtFrac_zeros (k : nat) :
  forall (n : Z) (acc : string),
    fmtFrac k (n * 10 ^ Z.of_nat k) false acc = (acc, n).
Proof.
  induction k as [|k IH]; intros n acc.
  - cbn [fmtFrac Z.of_nat]. now rewrite Z.pow_0_r, Z.mul_1_r.
  - cbn [fmtFrac]. rewrite Nat2Z.inj_succ, Z.pow_succ_r by lia.
    replace (n * (10 * 10 ^ Z.of_nat k)) with (n * 10 ^ Z.of_nat k * 10)
      by ring.
    rewrite Z.mod_mul, Z.div_mul by lia.
    cbn [Z.eqb negb orb]. apply IH.
Qed.

Lemma Duration_String_seconds (n : Z) :
  0 <= n -> Duration_String (Second * n) = whole_seconds n.
Proof.
  intros Hn. unfold Duration_String, whole_seconds, Second.
  destruct (Z.ltb_spec (1000000000 * n) 0) as [|_]; [lia |].
  rewrite (Z.abs_eq (1000000000 * n)) by lia.
  destruct (Z.eq_dec n 0) as [-> | Hnz]; [reflexivity |].
  destruct (Z.ltb_spec (1000000000 * n) 1000000000) as [|_]; [lia |].
  replace (1000000000 * n) with (n * 10 ^ Z.of_nat 9)
    by (change (10 ^ Z.of_nat 9) with 1000000000; lia).
  rewrite fmtFrac_zeros.
  destruct (Z.ltb_spec n 60) as [H60 | H60].
  - rewrite (Z.div_small n 60) by lia. cbn [Z.ltb Z.compare].
    rewrite Z.mod_small by lia. reflexivity.
  - assert (0 < n / 60) by (apply Z.div_str_pos; lia).
    destruct (Z.ltb_spec 0 (n / 60)) as [_|]; [| lia].
    rewrite Z.div_div by lia. change (60 * 60) with 3600.
    destruct (Z.ltb_spec n 3600) as [H36 | H36].
    + rewrite (Z.div_small n 3600) by lia. cbn [Z.ltb Z.compare].
      rewrite (Z.mod_small (n / 60)).
      2:{ split; [lia |]. apply Z.div_lt_upper_bound; lia. }
      rewrite !append_assoc. reflexivity.
    + assert (0 < n / 3600) by (apply Z.div_str_pos; lia).
      destruct (Z.ltb_spec 0 (n / 3600)) as [_|]; [| lia].
      rewrite !append_assoc. reflexivity.
Qed.

(** X14. The time on the status line is in whole seconds: for an
    elapsed time that is not negative, [%v] of
    [elapsed.Truncate(time.Second)] is the number of whole seconds
    written with hours and minutes the way [time.Duration] prints, with
    no fraction; and the status line depends on the elapsed time through
    that number alone. *)
Theorem displayProgress_time_in_whole_seconds (elapsed : Z)
    (Helapsed : 0 <= elapsed) :
  Duration_String (Duration_Truncate elapsed Second)
  = whole_seconds (elapsed / Second) /\
  forall files dirs errors skipped size,
    status_line files dirs errors skipped size elapsed
    = status_line files dirs errors skipped size
        (Second * (elapsed / Second)).
Proof.
  assert (E : Duration_Truncate elapsed Second = Second * (elapsed / Second)).
  { unfold Duration_Truncate, Second. cbn [Z.leb Z.compare].
    rewrite Z.rem_mod_nonneg by lia.
    pose proof (Z.div_mod elapsed 1000000000 ltac:(lia)). lia. }
  assert (D : 0 <= elapsed / Second)
    by (apply Z.div_pos; [lia | unfold Second; lia]).
  split.
  - rewrite E. apply Duration_String_seconds. exact D.
  - intros. unfold status_line. rewrite E.
    replace (Duration_Truncate (Second * (elapsed / Second)) Second)
      with (Second * (elapsed / Second)); [reflexivity |].
    unfold Duration_Truncate, Second. cbn [Z.leb Z.compare].
    rewrite Z.mul_comm, Z.rem_mul by lia. lia.
Qed.

Lemma displayProgress_time_in_whole_seconds_witness :
  0 <= 3723999999999 /\
  Duration_String (Duration_Truncate 3723999999999 Second) = "1h2m3s".
Proof.
  split; [lia |].
  exact (proj1 (displayProgress_time_in_whole_seconds 3723999999999
                  ltac:(lia))).
Defined.

(** ** Error messages and the error counter *)

Lemma add_one_counts (e : Z) :
  0 <= e <= Int64.max_int -> 0 <= atomic_AddInt64 e 1 ->
  atomic_AddInt64 e 1 = e + 1.
Proof.
  intros He H.
  destruct (Z.eq_dec e Int64.max_int) as [-> | Hne].
  - exfalso. revert H. vm_compute. intros H. apply H. reflexivity.
  - apply add_in_range. unfold Int64.in_range.
    pose proof min_int_neg. lia.
Qed.

Lemma nth_error_set_nth_inv {A : Type} (i j : nat) (a b : A) (l : list A) :
  nth_error (set_nth i a l) j = Some b -> b = a \/ nth_error l j = Some b.
Proof.
  revert i j. induction l as [|c l IH]; intros [|i] [|j] H; cbn in *;
    try discriminate; auto.
  - injection H as <-. auto.
  - eapply IH. exact H.
Qed.

(** The error counter of a scan, while the tree has no more entries than
    an int64 counts. *)
Lemma tally_errorCount_bounds (Lstat : string -> stat_result)
    (rootPath : string) (t : tree) (st : sys) :
  Z.of_nat (List.length (calls rootPath t)) <= Int64.max_int ->
  tally_inv Lstat st -> walk_tally_inv Lstat rootPath t st ->
  0 <= errorCount (sc st) <= Int64.max_int.
Proof.
  intros Hsmall [_ _ _ _ _ _ Ne _] [pre [post [Hc [Hp [He [Hn _]]]]]].
  assert (Hpre : is_prefix (sent st) (oks (calls rootPath t))).
  { rewrite Hc. apply is_prefix_oks. eapply is_prefix_app_l. exact Hp. }
  destruct (sums_in_range Lstat _ Hsmall) as [_ [_ [Re _]]].
  pose proof (weights_nonneg Lstat) as W.
  pose proof (sum_w_prefix (err_w Lstat) _ _
                (fun p => proj1 (proj2 (proj2 (W p)))) Hpre) as Me.
  pose proof (sum_w_nonneg (err_w Lstat) (chan st)
                (fun p => proj1 (proj2 (proj2 (W p))))) as Ce.
  pose proof (workers_sum_nonneg (owes (err_w Lstat)) (workers st)
                (owes_nonneg _ (fun p => proj1 (proj2 (proj2 (W p))))))
    as Oe.
  assert (Hpe : errs pre <= errs (calls rootPath t)).
  { rewrite Hc, errs_app. pose proof (errs_nonneg post). lia. }
  assert (Hmc : 0 <= maycount (wpc st)).
  { destruct (wpc st); cbn; try lia. destruct (v_err v); lia. }
  unfold tally in *. unfold Int64.in_range in *.
  pose proof min_int_neg as Hmin.
  rewrite He.
  rewrite !wrap_in_range by (unfold Int64.in_range; lia).
  lia.
Qed.

Lemma step_err_counted (Lstat : string -> stat_result) a d st st' :
  step Lstat a d st = Some st' ->
  0 <= errorCount (sc st) <= Int64.max_int ->
  0 <= errorCount (sc st') ->
  err_counted st -> err_counted st'.
Proof.
  intros H Hb Hb' [H1 [H2 H3]].
  step_cases H.
  all: use_state_equations.
  all: unfold err_counted.
  all: unfold Stop in *.
  all: repeat match goal with
         | |- context [if ?c then _ else _] => destruct c
         | H : context [if ?c then _ else _] |- _ => destruct c
         end.
  all: unfold_state.
  all: try rewrite (add_one_counts _ Hb Hb') in *.
  all: try pose proof (H2 _ _ eq_refl) as Hwalk.
  all: try match goal with
           | E : nth_error (workers _) _ = Some (WkSetErr _) |- _ =>
               pose proof (H3 _ _ E) as Hwork
           end.
  all: split; [| split].
  all: try (intros Hne; try specialize (H1 Hne); lia).
  all: try (intros v0 e0 Hw; first [discriminate Hw | lia
                                   | specialize (H2 _ _ Hw); lia]).
  all: intros j m Hj;
    first [ specialize (H3 _ _ Hj); lia
          | apply nth_error_set_nth_inv in Hj;
            destruct Hj as [Hj | Hj];
            [first [discriminate Hj | lia] | specialize (H3 _ _ Hj); lia] ].
Qed.

Lemma wrap_range (z : Z) : Int64.in_range (Int64.wrap z).
Proof.
  unfold Int64.in_range, Int64.wrap, Int64.min_int, Int64.max_int,
    Int64.modulus.
  pose proof (Z.mod_pos_bound (z + 2 ^ 63) (2 ^ 64) ltac:(lia)). lia.
Qed.

Lemma Start_state_err_counted (now gomaxprocs : Z) (rootPath : string)
    (t : tree) :
  err_counted (Start_state (NewScanner now gomaxprocs) rootPath t).
Proof.
  unfold err_counted, Start_state.
  cbn [sc wpc workers NewScanner lastError errorCount].
  split; [intros H; now contradiction H |].
  split; [intros v e H; discriminate H |].
  intros i msg H. apply nth_error_In in H. apply repeat_spec in H.
  discriminate H.
Qed.

(** All along a scan of a tree with no more entries than an int64
    counts, stopped or not. *)
Lemma run_err_counted (Lstat : string -> stat_result) (rootPath : string)
    (t : tree) (now gomaxprocs : Z) sched st :
  Z.of_nat (List.length (calls rootPath t)) <= Int64.max_int ->
  run Lstat sched (Start_state (NewScanner now gomaxprocs) rootPath t)
  = Some st ->
  tally_inv Lstat st /\ err_counted st.
Proof.
  intros Hsmall Hrun.
  assert (H : (tally_inv Lstat st /\ walk_tally_inv Lstat rootPath t st)
              /\ err_counted st); [| tauto].
  apply (run_invariant Lstat
           (fun x => (tally_inv Lstat x /\ walk_tally_inv Lstat rootPath t x)
                     /\ err_counted x))
    with (2 := Hrun).
  - intros a d s1 s2 Hs [[T1 T2] HE].
    assert (T1' : tally_inv Lstat s2) by (eapply step_tally_inv; eassumption).
    assert (T2' : walk_tally_inv Lstat rootPath t s2)
      by (eapply step_walk_tally_inv; eassumption).
    split; [split; assumption |].
    eapply step_err_counted; [exact Hs | | | exact HE].
    + eapply tally_errorCount_bounds; eassumption.
    + eapply tally_errorCount_bounds; eassumption.
  - split; [apply Start_state_tally | apply Start_state_err_counted].
Qed.

(** X15. In every state of a scan started on a new scanner, stopped or
    not, a stored error message means a counted error: [lastError] is
    non-empty only if [errorCount] is at least 1, the tree having no more
    entries than an int64 counts.  So a tick of [displayProgress] that
    reads the scanner at one instant sends the cursor up by exactly the
    lines it printed below the status line. *)
Theorem error_message_only_after_count
    (Lstat : string -> stat_result) (now gomaxprocs : Z)
    (rootPath : string) (t : tree) (sched : list (actor * bool)) (st : sys)
    (Hrun : run Lstat sched
              (Start_state (NewScanner now gomaxprocs) rootPath t)
            = Some st)
    (Hsmall : Z.of_nat (List.length (calls rootPath t)) <= Int64.max_int) :
  (lastError (sc st) <> "" -> 1 <= errorCount (sc st)) /\
  forall tick : Z,
    let below := lines_below (errorCount (sc st)) (currentPath (sc st))
                   (lastError (sc st)) in
    exists status,
      displayProgress_tick (sc st) tick
      = Returned ([clear_line; status] ++ below
                  ++ (if Nat.eqb (List.length below) 0 then []
                      else [cursor_up (Z.of_nat (List.length below))]))%list.
Proof.
  destruct (run_err_counted Lstat rootPath t now gomaxprocs sched st
              Hsmall Hrun) as [T [H1 _]].
  split; [exact H1 |].
  intros tick below.
  assert (Hb : Int64.in_range (bytesScanned (sc st))).
  { rewrite (tally_bytes _ _ T). apply wrap_range. }
  destruct (FormatBytes_returns _ Hb) as [size HF].
  eexists. unfold displayProgress_tick, getCurrentPath, getLastError.
  rewrite (progress_prints_lines _ _ _ _ _ _ _ _ _ HF).
  fold below.
  assert (E : (if Nat.ltb 0 (String.length (lastError (sc st)))
                  && (errorCount (sc st) <=? 0) then 1 else 0) = 0).
  { destruct (lastError (sc st)) as [|c s] eqn:El; [reflexivity |].
    cbn [String.length Nat.ltb Nat.leb andb].
    destruct (Z.leb_spec (errorCount (sc st)) 0) as [Hle |]; [| reflexivity].
    assert (1 <= errorCount (sc st)) by (apply H1; discriminate). lia. }
  rewrite E, Z.add_0_r.
  destruct (List.length below) as [|n]; reflexivity.
Qed.

Lemma error_message_only_after_count_witness :
  lastError (sc locked_scanned)
  = "Error accessing /r/locked: permission denied" /\
  1 <= errorCount (sc locked_scanned).
Proof.
  split; [reflexivity |].
  refine (proj1 (error_message_only_after_count Lstat_locked 0 1 "/r"
                   locked_dir walk_locked locked_scanned _ _) _).
  - vm_compute. reflexivity.
  - vm_compute. discriminate.
  - discriminate.
Defined.

(** ** The demo's directory listing *)

Lemma count_byte_nonneg (c : ascii) (s : string) : 0 <= count_byte c s.
Proof.
  induction s as [|x s IH]; cbn [count_byte]; [lia |].
  destruct (Ascii.eqb x c); lia.
Qed.

(** [strings.Split] returns one string more than there are separators. *)
Lemma strings_Split_length (sep : ascii) (s : string) :
  Z.of_nat (List.length (strings_Split sep s)) = count_byte sep s + 1.
Proof.
  induction s as [|x s IH]; cbn [strings_Split count_byte];
    [reflexivity |].
  pose proof (count_byte_nonneg sep s) as Hc.
  destruct (Ascii.eqb x sep).
  - cbn [List.length]. lia.
  - destruct (strings_Split sep s) as [|h rest]; cbn [List.length] in *; lia.
Qed.

Lemma tree_depth_colons (rel : string) :
  rel <> "" -> tree_depth rel = count_byte ":"%char rel.
Proof.
  intros Hne. unfold tree_depth, SplitList.
  destruct (String.eqb_spec rel "") as [| _]; [contradiction |].
  destruct (String.eqb_spec rel ".") as [-> | _]; [reflexivity |].
  rewrite strings_Split_length. lia.
Qed.

(** X16. The walk function of [showDirectoryTree] takes as depth the
    number of colons in the relative path, for [filepath.SplitList]
    splits at colons and not at separators.  It prunes when that number
    exceeds [maxDepth]; an entry whose relative path has no colon is at
    depth 0 however deep it lies: when [maxDepth] is not negative it is
    printed without indentation, under its whole path, and the walk goes
    on. *)
Theorem showDirectoryTree_depth_counts_colons
    (maxDepth : Z) (path rel : string) (info : FileInfo)
    (Hrel : rel <> "") (Hsize : Int64.in_range (Size info)) :
  tree_depth rel = count_byte ":"%char rel /\
  (maxDepth < count_byte ":"%char rel ->
   showDirectoryTree_visit maxDepth path (StatOk info) (Some rel)
   = Returned ([], if IsDir info then RetSkipDir else RetNil)) /\
  (count_byte ":"%char rel = 0 -> 0 <= maxDepth ->
   exists size,
     FormatBytes (Size info) = Returned size /\
     showDirectoryTree_visit maxDepth path (StatOk info) (Some rel)
     = Returned
         (if IsDir info then [symbol_dir ++ " " ++ path; LF]
          else [symbol_file ++ " " ++ path; " (" ++ size ++ ")"; LF],
          RetNil)).
Proof.
  pose proof (tree_depth_colons rel Hrel) as E.
  split; [exact E |]. split.
  - intros H. unfold showDirectoryTree_visit. rewrite E.
    destruct (Z.ltb_spec maxDepth (count_byte ":"%char rel)); [| lia].
    reflexivity.
  - intros H0 Hm.
    destruct (FormatBytes_returns _ Hsize) as [size HF].
    exists size. split; [exact HF |].
    unfold showDirectoryTree_visit. rewrite E, H0.
    destruct (Z.ltb_spec maxDepth 0); [lia |].
    cbn [Z.to_nat indent_loop Z.eqb append].
    destruct (IsDir info); [reflexivity |].
    rewrite HF. reflexivity.
Qed.

Lemma showDirectoryTree_depth_counts_colons_witness :
  tree_depth "a/b/c" = 0 /\
  showDirectoryTree_visit 1 "/r/a/b/c" (StatOk (mkFileInfo true 4096))
    (Some "a/b/c")
  = Returned ([symbol_dir ++ " /r/a/b/c"; LF], RetNil).
Proof.
  assert (Hs : Int64.in_range (Size (mkFileInfo true 4096)))
    by (unfold Int64.in_range, Int64.min_int, Int64.max_int; cbn; lia).
  assert (Hr : "a/b/c" <> "") by discriminate.
  destruct (showDirectoryTree_depth_counts_colons 1 "/r/a/b/c" "a/b/c"
              (mkFileInfo true 4096) Hr Hs) as [H1 [_ H3]].
  split; [exact H1 |].
  destruct (H3 eq_refl ltac:(lia)) as [size [_ H]]. exact H.
Defined.
